(** * Concave hulls of park multi-polygons: model of [1a_concave_hull.cpp]

    The program reads a GeoJSON feature collection, replaces the geometry of
    every MultiPolygon feature by a concave hull found by an escalating
    threshold search, prunes tiny fragments of two-part results in a second
    pass, and reports the features that are still multi-part.

    Conventions of the model.
    - The thresholds are C++ [float]s: IEEE 754 binary32 values with the
      operations of [SpecFloat], so that [+=] rounds as it does in the
      program. Areas are [double]s that the program only compares; they are
      modelled by the rational numbers they denote ([Q]).
    - [Geometry::clone] produces an equal value, so a clone is the value.
    - The GEOS primitives the program calls (the concave hull kernel, the
      area of a polygon, the GeoJSON writer) are parameters.
    - Dereferencing a null [unique_ptr] or the [end()] iterator of a map is
      undefined behaviour; the model stops there with [Undefined].
    - The file system is what the program observes of it (whether a stream
      opens, what the directory primitives answer); what the program leaves
      on disk is a list of events. Console output is not modelled. *)

From Stdlib Require Import ZArith QArith Qabs Lia.
From Stdlib Require Floats.SpecFloat.
From stdpp Require Import base option list strings pretty gmap.

Local Open Scope string_scope.
Local Open Scope list_scope.
Local Open Scope nat_scope.
Set Warnings "-register-all".

(** ** Numbers *)

(** [a < b] on doubles that are numbers. *)
Definition Qltb (a b : Q) : bool := negb (Qle_bool b a).

(** A C++ [float] or [double] value. The operations below round to
    binary32 ([float_]) or to binary64 ([double_]), to nearest, ties to even;
    converting a [float] to [double] leaves the value as it is. *)
Definition float : Type := SpecFloat.spec_float.

Definition float_add (x y : float) : float := SpecFloat.SFadd 24 128 x y.
Definition float_mul (x y : float) : float := SpecFloat.SFmul 24 128 x y.
Definition float_div (x y : float) : float := SpecFloat.SFdiv 24 128 x y.
Definition double_div (x y : float) : float := SpecFloat.SFdiv 53 1024 x y.

Definition double_of_Z (z : Z) : float :=
  SpecFloat.binary_normalize 53 1024 z 0 false.

(** The double a decimal literal with [decimals] digits after the point
    denotes: [double_literal 1113199 1] is the literal [111319.9]. *)
Definition double_literal (digits : Z) (decimals : nat) : float :=
  double_div (double_of_Z digits) (double_of_Z (10 ^ Z.of_nat decimals)).

(** The conversion of a [double] to [float], as in [const float x = 50.0;]. *)
Definition float_of_double (x : float) : float :=
  match x with
  | SpecFloat.S754_finite s m e => SpecFloat.binary_round 24 128 s m e
  | other => other
  end.

(** The rational number a finite value denotes (0 for the others). *)
Definition value (x : float) : Q :=
  match x with
  | SpecFloat.S754_finite s m e =>
    ((if s then -1 else 1) * inject_Z (Z.pos m) * 2 ^ e)%Q
  | _ => 0%Q
  end.

(** [(int)x] for a rational [x]: truncation towards zero. *)
Definition truncate (x : Q) : Z := Z.quot (Qnum x) (Z.pos (Qden x)).

(** ** Geometries, as far as the program inspects them *)

Definition Coordinate : Type := (Q * Q)%type.
Definition LinearRing : Type := list Coordinate.

(** A polygon is its shell followed by its holes. *)
Definition Polygon : Type := list LinearRing.

Inductive Geometry : Type :=
| GPoint (c : Coordinate)
| GLineString (cs : list Coordinate)
| GPolygon (p : Polygon)
| GMultiPoint (cs : list Coordinate)
| GMultiLineString (ls : list (list Coordinate))
| GMultiPolygon (parts : list Polygon)
| GGeometryCollection (gs : list Geometry).

Inductive GeometryTypeId : Type :=
| GEOS_POINT | GEOS_LINESTRING | GEOS_POLYGON | GEOS_MULTIPOINT
| GEOS_MULTILINESTRING | GEOS_MULTIPOLYGON | GEOS_GEOMETRYCOLLECTION.

Definition getGeometryTypeId (g : Geometry) : GeometryTypeId :=
  match g with
  | GPoint _ => GEOS_POINT
  | GLineString _ => GEOS_LINESTRING
  | GPolygon _ => GEOS_POLYGON
  | GMultiPoint _ => GEOS_MULTIPOINT
  | GMultiLineString _ => GEOS_MULTILINESTRING
  | GMultiPolygon _ => GEOS_MULTIPOLYGON
  | GGeometryCollection _ => GEOS_GEOMETRYCOLLECTION
  end.

Definition clone (g : Geometry) : Geometry := g.

(** ** GeoJSON values and features *)

Inductive GeoJSONValue : Type :=
| JNull
| JNumber (d : Q)
| JString (s : string)
| JBoolean (b : bool)
| JObject (o : list (string * GeoJSONValue))
| JArray (a : list GeoJSONValue).

Definition isString (v : GeoJSONValue) : bool :=
  match v with JString _ => true | _ => false end.

Record GeoJSONFeature : Type := mkFeature {
  getGeometry : Geometry;
  getProperties : gmap string GeoJSONValue;
  getId : string
}.

(** ** Outcomes of running a piece of the program *)

Inductive Fault : Type :=
| NullHullDeref        (* [hull->clone()] on a null [unique_ptr] *)
| EndIteratorDeref.    (* [properties.find(k)->second] with [k] absent *)

Inductive outcome (A : Type) : Type :=
| Done (a : A)              (* normal completion *)
| Throw (what : string)     (* a [std::exception] is propagating *)
| Undefined (f : Fault).    (* undefined behaviour was reached *)

Arguments Done {A} a.
Arguments Throw {A} what.
Arguments Undefined {A} f.

#[export] Instance outcome_ret : MRet outcome := fun A a => Done a.
#[export] Instance outcome_bind : MBind outcome := fun A B k m =>
  match m with
  | Done a => k a
  | Throw e => Throw e
  | Undefined f => Undefined f
  end.

(** [try { body } catch (const std::exception &e) { handler }] *)
Definition try_catch {A} (body : outcome A) (handler : string → outcome A) : outcome A :=
  match body with
  | Throw e => handler e
  | other => other
  end.

(** [GeoJSONValue::getString] throws on a value that is not a string. The
    GEOS header that declares the error is not among the sources; the error
    is taken to be one the [catch (const std::exception &)] at line 184
    handles. Completion of a run is therefore stated for string values. *)
Definition getString (v : GeoJSONValue) : outcome string :=
  match v with
  | JString s => Done s
  | _ => Throw "Not a string"
  end.

(** What [main] does with the outcome of its body: the [catch] at the end of
    [main] turns an exception into exit status 1. *)
Inductive ProcessExit (A : Type) : Type :=
| Exit0 (a : A)
| Exit1 (what : string)
| Crashed (f : Fault).

Arguments Exit0 {A} a.
Arguments Exit1 {A} what.
Arguments Crashed {A} f.

Definition main_exit {A} (body : outcome A) : ProcessExit A :=
  match body with
  | Done a => Exit0 a
  | Throw e => Exit1 e
  | Undefined f => Crashed f
  end.

(** ** Configuration: the constants at the top of the source file *)

Record Config : Type := mkConfig {
  EAPPLY_WHITELIST : gset string;
  CONCAVE_HULL_LENGTH_THRESHOLD : float;
  CONCAVE_HULL_LENGTH_INCREMENT : float;
  MAX_ATTEMPTS : nat;
  TINY_POLYGON_AREA_THRESHOLD : Q
}.

(** Lines 60-70. The three [float] constants are double literals converted
    to [float]; the product of two floats is a float. *)
Definition METERS_PER_DEGREE : float := float_of_double (double_literal 1113199 1).
Definition CONCAVE_HULL_LENGTH_THRESHOLD_METERS : float :=
  float_of_double (double_literal 500 1).
Definition CONCAVE_HULL_LENGTH_INCREMENT_METERS : float :=
  float_of_double (double_literal 200 1).
Definition TINY_POLYGON_AREA_THRESHOLD_SQ_METERS : float := double_literal 5000 1.
Definition SQ_METERS_PER_SQ_DEGREE : float :=
  float_mul METERS_PER_DEGREE METERS_PER_DEGREE.

(** The constants compiled into the program, with [whitelist] for the
    whitelist. *)
Definition source_constants (whitelist : gset string) : Config := {|
  EAPPLY_WHITELIST := whitelist;
  CONCAVE_HULL_LENGTH_THRESHOLD :=
    float_div CONCAVE_HULL_LENGTH_THRESHOLD_METERS METERS_PER_DEGREE;
  CONCAVE_HULL_LENGTH_INCREMENT :=
    float_div CONCAVE_HULL_LENGTH_INCREMENT_METERS METERS_PER_DEGREE;
  MAX_ATTEMPTS := 100;
  TINY_POLYGON_AREA_THRESHOLD :=
    value (double_div TINY_POLYGON_AREA_THRESHOLD_SQ_METERS SQ_METERS_PER_SQ_DEGREE)
|}.

(** The program as compiled: the whitelist is empty. *)
Definition source_config : Config := source_constants ∅.

(** ** The kernel and the other GEOS primitives *)

(** One call of [ConcaveHullOfPolygons::concaveHullByLength]: it returns a
    geometry or throws. Its length parameter is a [double]; the [float]
    threshold handed to it converts to the same value. *)
Inductive KernelResult : Type :=
| Returns (hull : Geometry)
| Throws (what : string).

Record Geos : Type := mkGeos {
  concaveHullByLength : Geometry → float → bool → bool → KernelResult;
  getArea : Polygon → Q;
  write : Geometry → string
}.

(** ** The threshold search, lines 176-225 *)

Record SearchState : Type := mkSearch {
  hull : option Geometry;          (* [std::unique_ptr<Geometry> hull] *)
  current_threshold : float;
  attempts : nat;
  thresholds_tried : list float    (* thresholds handed to the kernel, in order *)
}.

(** The test at lines 208-221 that ends the search. *)
Definition is_single_polygon (h : Geometry) : bool :=
  match h with
  | GMultiPolygon parts => Nat.eqb (length parts) 1
  | GPolygon _ => true
  | _ => false
  end.

Section Program.
Variable geos : Geos.
Variable cfg : Config.

(** The [for] loop; [remaining] is [MAX_ATTEMPTS - attempts]. *)
Fixpoint search_loop (geom : Geometry) (remaining : nat) (st : SearchState)
  : SearchState :=
  match remaining with
  | 0 => st
  | S remaining' =>
    let tried := thresholds_tried st ++ [current_threshold st] in
    match concaveHullByLength geos geom (current_threshold st) true false with
    | Throws _ =>
      (* catch: raise the threshold, [continue] *)
      search_loop geom remaining'
        {| hull := hull st;
           current_threshold :=
             float_add (current_threshold st) (CONCAVE_HULL_LENGTH_INCREMENT cfg);
           attempts := S (attempts st);
           thresholds_tried := tried |}
    | Returns h =>
      if is_single_polygon h then
        (* [break] *)
        {| hull := Some h;
           current_threshold := current_threshold st;
           attempts := attempts st;
           thresholds_tried := tried |}
      else
        search_loop geom remaining'
          {| hull := Some h;
             current_threshold :=
               float_add (current_threshold st) (CONCAVE_HULL_LENGTH_INCREMENT cfg);
             attempts := S (attempts st);
             thresholds_tried := tried |}
    end
  end.

Definition search_init : SearchState :=
  {| hull := None;
     current_threshold := CONCAVE_HULL_LENGTH_THRESHOLD cfg;
     attempts := 0;
     thresholds_tried := [] |}.

Definition search (geom : Geometry) : SearchState :=
  search_loop geom (MAX_ATTEMPTS cfg) search_init.

(** Number of kernel invocations made by the search. *)
Definition attempts_used (s : SearchState) : nat := length (thresholds_tried s).

(** The count printed at line 239. *)
Definition attempts_logged (s : SearchState) : nat := attempts s + 1.

(** *** The first pass over the input features, lines 134-281 *)

Record PassState : Type := mkPass {
  output_features : list GeoJSONFeature;
  output_features_with_hulls : list GeoJSONFeature;
  processed : nat;
  skipped : nat
}.

Definition pass_init : PassState :=
  {| output_features := [];
     output_features_with_hulls := [];
     processed := 0;
     skipped := 0 |}.

(** Lines 145-156. *)
Definition should_process (properties : gmap string GeoJSONValue) : bool :=
  if decide (EAPPLY_WHITELIST cfg = ∅) then true
  else match properties !! "eapply" with
       | Some (JString eapply_value) =>
         bool_decide (eapply_value ∈ EAPPLY_WHITELIST cfg)
       | _ => false
       end.

(** Lines 180-187: the name is printed inside its own [try]; the iterator
    returned by [find] is dereferenced unchecked. *)
Definition print_name311 (properties : gmap string GeoJSONValue) : outcome unit :=
  match properties !! "name311" with
  | None => Undefined EndIteratorDeref
  | Some v => try_catch (_ ← getString v; mret ()) (λ _, mret ())
  end.

(** The feature pushed to the annotated collection, lines 249-257. *)
Definition feature_with_hull (feature : GeoJSONFeature) (hull_copy : Geometry)
  : GeoJSONFeature :=
  let hull_geojson := write geos hull_copy in
  let properties_with_hull :=
    <["concave_hull_polygon" := JString hull_geojson]> (getProperties feature) in
  mkFeature (clone (getGeometry feature)) properties_with_hull (getId feature).

(** The copy made of a feature that is kept as it is. *)
Definition feature_copy (feature : GeoJSONFeature) : GeoJSONFeature :=
  mkFeature (clone (getGeometry feature)) (getProperties feature) (getId feature).

(** The body of the loop over the input features. *)
Definition process_feature (st : PassState) (feature : GeoJSONFeature)
  : outcome PassState :=
  let geom := getGeometry feature in
  let properties := getProperties feature in
  if negb (should_process properties) then
    mret {| output_features := output_features st ++ [feature_copy feature];
            output_features_with_hulls :=
              output_features_with_hulls st ++ [feature_copy feature];
            processed := processed st;
            skipped := S (skipped st) |}
  else
    match geom with
    | GMultiPolygon _ =>
      _ ← print_name311 properties;
      let s := search geom in
      match hull s with
      | None => Undefined NullHullDeref
      | Some h =>
        let hull_copy := clone h in
        let hull_feature := mkFeature h (getProperties feature) (getId feature) in
        mret {| output_features := output_features st ++ [hull_feature];
                output_features_with_hulls :=
                  output_features_with_hulls st ++ [feature_with_hull feature hull_copy];
                processed := S (processed st);
                skipped := skipped st |}
      end
    | _ =>
      mret {| output_features := output_features st ++ [feature_copy feature];
              output_features_with_hulls :=
                output_features_with_hulls st ++ [feature_copy feature];
              processed := S (processed st);
              skipped := skipped st |}
    end.

Fixpoint first_pass_from (st : PassState) (features : list GeoJSONFeature)
  : outcome PassState :=
  match features with
  | [] => mret st
  | feature :: rest => st' ← process_feature st feature; first_pass_from st' rest
  end.

Definition first_pass (features : list GeoJSONFeature) : outcome PassState :=
  first_pass_from pass_init features.

(** *** The second pass over the hull-only collection, lines 289-367 *)

Record ReportState : Type := mkReport {
  hull_features : list GeoJSONFeature;     (* [output_features] *)
  multi_polygon_names : list string;
  multi_polygon_features : list GeoJSONFeature;
  tiny_polygons_removed : nat
}.

(** Lines 303-314. *)
Definition eapply_name (properties : gmap string GeoJSONValue) : string :=
  match properties !! "eapply" with
  | Some (JString s) => s
  | _ => "(no eapply value)"
  end.

(** Lines 320-339: the polygon to keep, when one of two parts is tiny. *)
Definition larger_poly (poly1 poly2 : Polygon) : option Polygon :=
  let area1 := getArea geos poly1 in
  let area2 := getArea geos poly2 in
  if Qltb area1 area2 && Qltb area1 (TINY_POLYGON_AREA_THRESHOLD cfg) then Some poly2
  else if Qltb area2 area1 && Qltb area2 (TINY_POLYGON_AREA_THRESHOLD cfg) then Some poly1
  else None.

(** The body of the loop at index [i]. *)
Definition second_pass_body (st : ReportState) (i : nat) : ReportState :=
  match hull_features st !! i with
  | None => st
  | Some feature =>
    match getGeometry feature with
    | GMultiPolygon parts =>
      if Nat.ltb 1 (length parts) then
        let properties := getProperties feature in
        let name := eapply_name properties in
        let unresolved :=
          {| hull_features := hull_features st;
             multi_polygon_names := multi_polygon_names st ++ [name];
             multi_polygon_features :=
               multi_polygon_features st ++ [feature_copy feature];
             tiny_polygons_removed := tiny_polygons_removed st |} in
        match parts with
        | [poly1; poly2] =>
          match larger_poly poly1 poly2 with
          | Some larger =>
            let new_feature :=
              mkFeature (clone (GPolygon larger)) properties (getId feature) in
            {| hull_features := <[i := new_feature]> (hull_features st);
               multi_polygon_names := multi_polygon_names st;
               multi_polygon_features := multi_polygon_features st;
               tiny_polygons_removed := S (tiny_polygons_removed st) |}
          | None => unresolved
          end
        | _ => unresolved
        end
      else st
    | _ => st
    end
  end.

Definition second_pass (output : list GeoJSONFeature) : ReportState :=
  foldl second_pass_body
    {| hull_features := output;
       multi_polygon_names := [];
       multi_polygon_features := [];
       tiny_polygons_removed := 0 |}
    (seq 0 (length output)).

(** *** The whole in-memory run *)

Record RunResult : Type := mkRun {
  hulls_collection : list GeoJSONFeature;        (* written to OUTPUT_PATH_HULLS *)
  with_hulls_collection : list GeoJSONFeature;   (* written to OUTPUT_PATH_WITH_HULLS *)
  unresolved_names : list string;
  issue_features : list GeoJSONFeature;
  tiny_removed : nat;
  processed_count : nat;
  skipped_count : nat
}.

Definition run (features : list GeoJSONFeature) : outcome RunResult :=
  st ← first_pass features;
  let rep := second_pass (output_features st) in
  mret {| hulls_collection := hull_features rep;
          with_hulls_collection := output_features_with_hulls st;
          unresolved_names := multi_polygon_names rep;
          issue_features := multi_polygon_features rep;
          tiny_removed := tiny_polygons_removed rep;
          processed_count := processed st;
          skipped_count := skipped st |}.

(** *** Summaries of the two passes, used to state what they compute *)

(** The pair of features that one input feature contributes to the two
    collections, when its processing completes. *)
Definition emitted (feature : GeoJSONFeature)
  : option (GeoJSONFeature * GeoJSONFeature) :=
  if negb (should_process (getProperties feature)) then
    Some (feature_copy feature, feature_copy feature)
  else
    match getGeometry feature with
    | GMultiPolygon _ =>
      match getProperties feature !! "name311",
            hull (search (getGeometry feature)) with
      | Some _, Some h =>
        Some (mkFeature h (getProperties feature) (getId feature),
              feature_with_hull feature h)
      | _, _ => None
      end
    | _ => Some (feature_copy feature, feature_copy feature)
    end.

(** What the second pass does with one feature of the hull-only
    collection. *)
Inductive Resolution : Type :=
| Untouched
| Pruned (larger : Polygon)
| StillMultiPart.

Definition resolution (feature : GeoJSONFeature) : Resolution :=
  match getGeometry feature with
  | GMultiPolygon parts =>
    if Nat.ltb 1 (length parts) then
      match parts with
      | [poly1; poly2] =>
        match larger_poly poly1 poly2 with
        | Some larger => Pruned larger
        | None => StillMultiPart
        end
      | _ => StillMultiPart
      end
    else Untouched
  | _ => Untouched
  end.

Definition is_pruned (feature : GeoJSONFeature) : bool :=
  match resolution feature with Pruned _ => true | _ => false end.

Definition is_still_multi_part (feature : GeoJSONFeature) : bool :=
  match resolution feature with StillMultiPart => true | _ => false end.

(** The feature left in the slot of [feature] by the second pass. *)
Definition resolved_feature (feature : GeoJSONFeature) : GeoJSONFeature :=
  match resolution feature with
  | Pruned larger =>
    mkFeature (GPolygon larger) (getProperties feature) (getId feature)
  | _ => feature
  end.

(** The state of the second pass when the first [k] slots are done. *)
Definition report_after (output : list GeoJSONFeature) (k : nat) : ReportState :=
  {| hull_features := (resolved_feature <$> take k output) ++ drop k output;
     multi_polygon_names :=
       (λ f, eapply_name (getProperties f))
         <$> List.filter is_still_multi_part (take k output);
     multi_polygon_features :=
       feature_copy <$> List.filter is_still_multi_part (take k output);
     tiny_polygons_removed := length (List.filter is_pruned (take k output)) |}.

End Program.

(** ** What the second pass can do to a feature of the hull-only collection *)

(** The feature is left in its slot with all its parts and is recorded in
    the unresolved lists; nothing is pruned. Stated for the loop body at any
    state whose slot [i] holds the feature, and for the whole pass. *)
Definition left_unresolved (geos : Geos) (cfg : Config) (feature : GeoJSONFeature)
  : Prop :=
  (∀ st i, hull_features st !! i = Some feature →
     second_pass_body geos cfg st i =
       {| hull_features := hull_features st;
          multi_polygon_names :=
            multi_polygon_names st ++ [eapply_name (getProperties feature)];
          multi_polygon_features := multi_polygon_features st ++ [feature];
          tiny_polygons_removed := tiny_polygons_removed st |})
  ∧ (∀ output i, output !! i = Some feature →
       hull_features (second_pass geos cfg output) !! i = Some feature
       ∧ eapply_name (getProperties feature)
           ∈ multi_polygon_names (second_pass geos cfg output)
       ∧ feature ∈ multi_polygon_features (second_pass geos cfg output)).

(** The feature's geometry is replaced, in its own slot, by the single
    polygon [kept]; the feature is not recorded as unresolved and the
    tiny-polygon counter goes up by one. *)
Definition pruned_to (geos : Geos) (cfg : Config) (feature : GeoJSONFeature)
    (kept : Polygon) : Prop :=
  (∀ st i, hull_features st !! i = Some feature →
     second_pass_body geos cfg st i =
       {| hull_features :=
            <[i := mkFeature (GPolygon kept) (getProperties feature) (getId feature)]>
              (hull_features st);
          multi_polygon_names := multi_polygon_names st;
          multi_polygon_features := multi_polygon_features st;
          tiny_polygons_removed := S (tiny_polygons_removed st) |})
  ∧ (∀ output i, output !! i = Some feature →
       hull_features (second_pass geos cfg output) !! i
         = Some (mkFeature (GPolygon kept) (getProperties feature) (getId feature)))
  ∧ is_still_multi_part geos cfg feature = false.

(** ** The thresholds of an escalating search *)

(** [n] thresholds starting at [t], each the float sum of the one before
    and [dt]. *)
Fixpoint escalation (t dt : float) (n : nat) : list float :=
  match n with
  | 0 => []
  | S n' => t :: escalation (float_add t dt) dt n'
  end.

(** [t] after [k] float additions of [dt]. *)
Definition raised (t dt : float) (k : nat) : float :=
  Nat.iter k (λ x, float_add x dt) t.

(** Each value of [ts] is strictly below the next. *)
Fixpoint ascending (ts : list float) : bool :=
  match ts with
  | t :: ((u :: _) as rest) => Qltb (value t) (value u) && ascending rest
  | _ => true
  end.

(** Lines 238-240: the threshold printed in meters,
    [(int)(current_threshold * METERS_PER_DEGREE)]. *)
Definition final_threshold_meters (s : SearchState) : Z :=
  truncate (value (float_mul (current_threshold s) METERS_PER_DEGREE)).

(** ** Files, directories and [main], lines 72-131 and 369-431 *)

(** What the run leaves on disk, in the order it happens. *)
Inductive Event : Type :=
| FileWritten (filename content : string)
| DirectoryCreated (dir_path : string).

(** The answer of a directory primitive ([stat]/[mkdir], or
    [fs::exists]/[fs::create_directory], which may also throw). *)
Inductive Answer : Type :=
| Yes
| No
| Raises (what : string).

(** The file system as the program observes it: whether a stream opens, and
    what the directory primitives answer. *)
Record FileSystem : Type := mkFileSystem {
  open_for_reading : string → option string;   (* the content, if [is_open] *)
  open_for_writing : string → bool;            (* [is_open] of an [ofstream] *)
  directory_exists : string → Answer;
  create_directory : string → Answer
}.

(** [GeoJSONReader::readFeatures] returns the features or throws. *)
Inductive ParseResult : Type :=
| Parsed (features : list GeoJSONFeature)
| ParseFails (what : string).

(** The GeoJSON reader, and the writer applied to a feature collection. *)
Record GeoJSONIO : Type := mkGeoJSONIO {
  readFeatures : string → ParseResult;
  writeFeatures : list GeoJSONFeature → string
}.

(** Computations that may throw and that append to the events so far. *)
Definition IO (A : Type) : Type := list Event → outcome A * list Event.

#[export] Instance IO_ret : MRet IO := fun A a events => (Done a, events).
#[export] Instance IO_bind : MBind IO := fun A B k m events =>
  match m events with
  | (Done a, events') => k a events'
  | (Throw e, events') => (Throw e, events')
  | (Undefined f, events') => (Undefined f, events')
  end.

Definition lift {A} (o : outcome A) : IO A := fun events => (o, events).

Definition ask (a : Answer) : IO bool :=
  match a with
  | Yes => mret true
  | No => mret false
  | Raises what => lift (Throw what)
  end.

Definition SOURCE_DATA_FILE : string := "./output_data/0b_parks_filtered.geojson".
Definition OUTPUT_PATH_HULLS : string := "./output_data/1a_parks_concave_hulls.geojson".
Definition OUTPUT_PATH_WITH_HULLS : string :=
  "./output_data/1a_parks_with_concave_hulls.geojson".
Definition issue_dir : string := "temp/issue_geojson".

(** Lines 72-82. *)
Definition readFile (fs : FileSystem) (filename : string) : IO string :=
  match open_for_reading fs filename with
  | None => lift (Throw ("Could not open file: " +:+ filename))
  | Some content => mret content
  end.

Definition record (e : Event) : IO unit := fun events => (Done (), events ++ [e]).

(** Lines 84-92. *)
Definition writeFile (fs : FileSystem) (filename content : string) : IO unit :=
  if open_for_writing fs filename
  then record (FileWritten filename content)
  else lift (Throw ("Could not write to file: " +:+ filename)).

(** Lines 94-111. *)
Definition createDirectoryIfNotExists (fs : FileSystem) (dir_path : string) : IO bool :=
  present ← ask (directory_exists fs dir_path);
  if negb present then
    created ← ask (create_directory fs dir_path);
    if (created : bool) then _ ← record (DirectoryCreated dir_path); mret true
    else mret false
  else mret true.

(** Line 399: the name of the file for the issue at index [i]. *)
Definition issue_filename (i : nat) : string :=
  issue_dir +:+ "/issue_" +:+ pretty (i + 1) +:+ ".geojson".

Section Main.
Variable fs : FileSystem.
Variable io : GeoJSONIO.
Variable geos : Geos.
Variable cfg : Config.

(** The loop at lines 394-402, from index [i] on. *)
Fixpoint write_issue_files (i : nat) (issues : list GeoJSONFeature) : IO unit :=
  match issues with
  | [] => mret ()
  | issue_feature :: rest =>
    _ ← writeFile fs (issue_filename i) (writeFeatures io [issue_feature]);
    write_issue_files (S i) rest
  end.

(** Lines 375-404, without the console output. *)
Definition report_issues (r : RunResult) : IO unit :=
  match unresolved_names r with
  | [] => mret ()
  | _ :: _ =>
    created ← createDirectoryIfNotExists fs issue_dir;
    if negb created then mret ()
    else write_issue_files 0 (issue_features r)
  end.

(** The body of the [try] block of [main]. *)
Definition main_body : IO unit :=
  geojson_content ← readFile fs SOURCE_DATA_FILE;
  features ← lift (match readFeatures io geojson_content with
                   | Parsed features => Done features
                   | ParseFails what => Throw what
                   end);
  r ← lift (run geos cfg features);
  _ ← report_issues r;
  _ ← writeFile fs OUTPUT_PATH_HULLS (writeFeatures io (hulls_collection r));
  writeFile fs OUTPUT_PATH_WITH_HULLS (writeFeatures io (with_hulls_collection r)).

(** [main]: its exit and what it left on disk. *)
Definition main : ProcessExit unit * list Event :=
  let '(o, events) := main_body [] in (main_exit o, events).

End Main.

(** ** More summaries of the search and of the second pass *)

(** The value of [hull] after kernel calls at the thresholds [ts], starting
    from [before]: each call that returns overwrites it, a call that throws
    leaves it. *)
Definition hull_after (geos : Geos) (geom : Geometry) (before : option Geometry)
    (ts : list float) : option Geometry :=
  foldl (λ acc t, match concaveHullByLength geos geom t true false with
                  | Returns h => Some h
                  | Throws _ => acc
                  end) before ts.

(** The result of the last call that returned, if any did. *)
Definition last_returned (geos : Geos) (geom : Geometry) (ts : list float)
  : option Geometry :=
  hull_after geos geom None ts.

(** The kernel call at threshold [t] does not end the search: it throws, or
    returns something that is not a single polygon. *)
Definition escalates_at (geos : Geos) (geom : Geometry) (t : float) : Prop :=
  ∀ h, concaveHullByLength geos geom t true false = Returns h →
       is_single_polygon h = false.

(** The events of writing one file per issue, numbered from [i]. *)
Fixpoint issue_events (io : GeoJSONIO) (i : nat) (issues : list GeoJSONFeature)
  : list Event :=
  match issues with
  | [] => []
  | issue_feature :: rest =>
    FileWritten (issue_filename i) (writeFeatures io [issue_feature])
    :: issue_events io (S i) rest
  end.

(** The test at lines 298-301: a multi-polygon of more than one part. *)
Definition has_many_parts (feature : GeoJSONFeature) : bool :=
  match getGeometry feature with
  | GMultiPolygon parts => Nat.ltb 1 (length parts)
  | _ => false
  end.

(** ** Sample primitives and inputs *)

Fixpoint ring_cross_sum (r : LinearRing) : Q :=
  match r with
  | (x1, y1) :: (((x2, y2) :: _) as tl) => (x1 * y2 - x2 * y1) + ring_cross_sum tl
  | _ => 0
  end.

Definition ring_area (r : LinearRing) : Q := Qabs (ring_cross_sum r) / 2.

(** Area of the shell minus the areas of the holes. *)
Definition sample_area (p : Polygon) : Q :=
  match p with
  | [] => 0
  | shell :: holes => foldl (λ a h, (a - ring_area h)%Q) (ring_area shell) holes
  end.

Definition sample_write (g : Geometry) : string :=
  match g with
  | GPolygon _ => "Polygon"
  | GMultiPolygon parts => "MultiPolygon/" ++ pretty (length parts)
  | _ => "Geometry"
  end.

(** A kernel that throws at every threshold. *)
Definition kernel_throws (g : Geometry) (t : float) (tight holes : bool)
  : KernelResult :=
  Throws "TopologyException".

(** A kernel that returns its input: the parts never merge. *)
Definition kernel_echo (g : Geometry) (t : float) (tight holes : bool)
  : KernelResult :=
  Returns g.

(** A kernel that throws below [fail_below], leaves the parts apart below
    [merge_from], and returns the single polygon [merged] from there on. *)
Definition kernel_steps (fail_below merge_from : Q) (merged : Polygon)
    (g : Geometry) (t : float) (tight holes : bool) : KernelResult :=
  if Qltb (value t) fail_below then Throws "TopologyException"
  else if Qltb (value t) merge_from then Returns g
  else Returns (GPolygon merged).

(** A kernel that leaves the parts apart below [limit] and throws from there
    on. *)
Definition kernel_fragile (limit : Q) (g : Geometry) (t : float)
    (tight holes : bool) : KernelResult :=
  if Qltb (value t) limit then Returns g else Throws "TopologyException".

Definition geos_fragile (limit : Q) : Geos :=
  mkGeos (kernel_fragile limit) sample_area sample_write.

Definition geos_throws : Geos := mkGeos kernel_throws sample_area sample_write.
Definition geos_echo : Geos := mkGeos kernel_echo sample_area sample_write.
Definition geos_steps (fail_below merge_from : Q) (merged : Polygon) : Geos :=
  mkGeos (kernel_steps fail_below merge_from merged) sample_area sample_write.

(** The square with lower left corner [(x, y)] and side [w]. *)
Definition square (x y w : Q) : Polygon :=
  [[(x, y); (x + w, y); (x + w, y + w); (x, y + w); (x, y)]]%Q.

(** A feature named [name] in both of the properties the program reads. *)
Definition park (name : string) (g : Geometry) : GeoJSONFeature :=
  mkFeature g (<["eapply" := JString name]> (<["name311" := JString name]> ∅)) name.

(** A small configuration: thresholds 1/2, 3/4, 1, ... for at most 4
    attempts; parts below area 1/100 are tiny. *)
Definition small_config (whitelist : gset string) : Config :=
  mkConfig whitelist (float_of_double (double_literal 5 1))
           (float_of_double (double_literal 25 2)) 4 (1 # 100).

Definition sliver : Polygon := square 0 0 (1 # 1000).
Definition crumb : Polygon := square 0 0 (1 # 10000).
Definition speck : Polygon := square 5 5 (1 # 20).
Definition block : Polygon := square 1 1 1.
Definition field : Polygon := square 3 3 2.

(** A file system in which the source file holds [content], every file can
    be opened for writing, and the issue directory is absent and can be
    created. *)
Definition fs_fresh (content : string) : FileSystem :=
  mkFileSystem (λ f, if decide (f = SOURCE_DATA_FILE) then Some content else None)
               (λ _, true) (λ _, No) (λ _, Yes).

(** The same with the answers of the directory primitives given, and with
    the files of [refused] impossible to open for writing. *)
Definition fs_with (content : string) (present created : Answer)
    (refused : list string) : FileSystem :=
  mkFileSystem (λ f, if decide (f = SOURCE_DATA_FILE) then Some content else None)
               (λ f, bool_decide (f ∉ refused)) (λ _, present) (λ _, created).

(** A reader that parses every text to [features], and a writer that lists
    the identifiers of a collection. *)
Definition sample_io (features : list GeoJSONFeature) : GeoJSONIO :=
  mkGeoJSONIO (λ _, Parsed features)
              (λ fc, foldr (λ f acc, getId f +:+ ";" +:+ acc) "" fc).

(** ** Facts about the threshold search *)

Lemma Qltb_lt (a b : Q) : Qltb a b = true ↔ (a < b)%Q.
Proof.
  unfold Qltb. rewrite negb_true_iff, <- not_true_iff_false, Qle_bool_iff.
  split; [apply Qnot_le_lt | apply Qlt_not_le].
Qed.

Lemma Qltb_ge (a b : Q) : Qltb a b = false ↔ (b <= a)%Q.
Proof.
  unfold Qltb. rewrite negb_false_iff. apply Qle_bool_iff.
Qed.

Lemma escalation_length t dt n : length (escalation t dt n) = n.
Proof. revert t. induction n as [|n IH]; intros t; simpl; [done | by rewrite IH]. Qed.

Lemma raised_shift t dt k : raised (float_add t dt) dt k = raised t dt (S k).
Proof. unfold raised. by rewrite Nat.iter_succ_r. Qed.

Lemma escalation_lookup t dt n k :
  k < n → escalation t dt n !! k = Some (raised t dt k).
Proof.
  revert t k. induction n as [|n IH]; intros t k Hk; [lia|].
  destruct k as [|k]; simpl; [done|].
  rewrite IH by lia. by rewrite raised_shift.
Qed.

Lemma escalation_last t dt n :
  0 < n → last (escalation t dt n) = Some (raised t dt (n - 1)).
Proof.
  intros Hn. rewrite last_lookup, escalation_length.
  replace (pred n) with (n - 1) by lia. apply escalation_lookup. lia.
Qed.

Section SearchFacts.
Variable geos : Geos.
Variable cfg : Config.

Local Abbreviation dT := (CONCAVE_HULL_LENGTH_INCREMENT cfg).
Local Abbreviation kernel := (concaveHullByLength geos).

(** A kernel failure is caught inside the loop: the hull is left as it
    was, the threshold is raised and the next attempt starts. *)
Lemma search_loop_throws geom remaining st what :
  kernel geom (current_threshold st) true false = Throws what →
  search_loop geos cfg geom (S remaining) st =
  search_loop geos cfg geom remaining
    {| hull := hull st;
       current_threshold := float_add (current_threshold st) dT;
       attempts := S (attempts st);
       thresholds_tried := thresholds_tried st ++ [current_threshold st] |}.
Proof. intros H. simpl. by rewrite H. Qed.

Lemma search_loop_accepts geom remaining st h :
  kernel geom (current_threshold st) true false = Returns h →
  is_single_polygon h = true →
  search_loop geos cfg geom (S remaining) st =
    {| hull := Some h;
       current_threshold := current_threshold st;
       attempts := attempts st;
       thresholds_tried := thresholds_tried st ++ [current_threshold st] |}.
Proof. intros H Hs. simpl. by rewrite H, Hs. Qed.

Lemma search_loop_escalates geom remaining st h :
  kernel geom (current_threshold st) true false = Returns h →
  is_single_polygon h = false →
  search_loop geos cfg geom (S remaining) st =
  search_loop geos cfg geom remaining
    {| hull := Some h;
       current_threshold := float_add (current_threshold st) dT;
       attempts := S (attempts st);
       thresholds_tried := thresholds_tried st ++ [current_threshold st] |}.
Proof. intros H Hs. simpl. by rewrite H, Hs. Qed.

(** How a search ends, from any loop state. [n] is the number of kernel
    calls made and [k] the number of times the threshold was raised. *)
Lemma search_loop_exit geom remaining st :
  ∃ n k,
    thresholds_tried (search_loop geos cfg geom remaining st) =
      thresholds_tried st ++ escalation (current_threshold st) dT n
    ∧ attempts (search_loop geos cfg geom remaining st) = attempts st + k
    ∧ current_threshold (search_loop geos cfg geom remaining st)
      = raised (current_threshold st) dT k
    ∧ ((k = remaining ∧ n = remaining)
       ∨ (k < remaining ∧ n = S k
          ∧ ∃ h, hull (search_loop geos cfg geom remaining st) = Some h
                 ∧ is_single_polygon h = true)).
Proof.
  revert st. induction remaining as [|rem IH]; intros st.
  - exists 0, 0. simpl. rewrite app_nil_r.
    split_and!; [done | lia | done | by left].
  - destruct (kernel geom (current_threshold st) true false) as [h|what] eqn:K.
    + destruct (is_single_polygon h) eqn:Hs.
      * rewrite (search_loop_accepts _ _ _ _ K Hs). exists 1, 0. simpl.
        split_and!; [done | lia | done |].
        right. split_and!; [lia | done | by exists h].
      * rewrite (search_loop_escalates _ _ _ _ K Hs).
        destruct (IH {| hull := Some h;
                        current_threshold := float_add (current_threshold st) dT;
                        attempts := S (attempts st);
                        thresholds_tried := thresholds_tried st ++ [current_threshold st] |})
          as (n & k & Ht & Ha & Hc & Hend).
        simpl in Ht, Ha, Hc. exists (S n), (S k).
        rewrite Ht, Ha, Hc, <- app_assoc. simpl.
        split_and!; [done | lia | |].
        { by rewrite raised_shift. }
        destruct Hend as [[-> ->] | (Hk & -> & Hh)]; [by left | right].
        split_and!; [lia | done | done].
    + rewrite (search_loop_throws _ _ _ _ K).
      destruct (IH {| hull := hull st;
                      current_threshold := float_add (current_threshold st) dT;
                      attempts := S (attempts st);
                      thresholds_tried := thresholds_tried st ++ [current_threshold st] |})
        as (n & k & Ht & Ha & Hc & Hend).
      simpl in Ht, Ha, Hc. exists (S n), (S k).
      rewrite Ht, Ha, Hc, <- app_assoc. simpl.
      split_and!; [done | lia | |].
      { by rewrite raised_shift. }
      destruct Hend as [[-> ->] | (Hk & -> & Hh)]; [by left | right].
      split_and!; [lia | done | done].
Qed.

End SearchFacts.

(** ** Facts about the first pass *)

Section FirstPassFacts.
Variable geos : Geos.
Variable cfg : Config.

Lemma print_name311_outcome properties :
  print_name311 properties = Done ()
  ∨ (properties !! "name311" = None
     ∧ print_name311 properties = Undefined EndIteratorDeref).
Proof.
  unfold print_name311. destruct (properties !! "name311") as [v|]; [left | right; split; reflexivity].
  destruct v; reflexivity.
Qed.

Lemma print_name311_done properties :
  is_Some (properties !! "name311") → print_name311 properties = Done ().
Proof.
  intros [v Hv]. destruct (print_name311_outcome properties) as [H | [H _]]; [done|].
  congruence.
Qed.

(** Processing a feature either completes, pushing [emitted], or reaches
    undefined behaviour; it never ends with an exception. *)
Lemma process_feature_outcome st feature :
  match process_feature geos cfg st feature with
  | Done st' =>
    ∃ a b, emitted geos cfg feature = Some (a, b)
           ∧ output_features st' = output_features st ++ [a]
           ∧ output_features_with_hulls st' = output_features_with_hulls st ++ [b]
  | Throw _ => False
  | Undefined _ => emitted geos cfg feature = None
  end.
Proof.
  unfold process_feature, emitted.
  destruct (negb (should_process cfg (getProperties feature))); simpl.
  { eexists _, _. done. }
  destruct (getGeometry feature) eqn:G; simpl; try (by eexists _, _).
  destruct (getProperties feature !! "name311") as [v|] eqn:E.
  - rewrite print_name311_done by (by rewrite E). simpl.
    destruct (hull (search geos cfg (GMultiPolygon parts))) as [h|]; simpl; [|done].
    by eexists _, _.
  - unfold print_name311. by rewrite E.
Qed.

Lemma first_pass_from_outcome features : ∀ st,
  match first_pass_from geos cfg st features with
  | Done st' =>
    ∃ pairs, Forall2 (λ f p, emitted geos cfg f = Some p) features pairs
             ∧ output_features st' = output_features st ++ pairs.*1
             ∧ output_features_with_hulls st' =
                 output_features_with_hulls st ++ pairs.*2
  | Throw _ => False
  | Undefined _ => Exists (λ f, emitted geos cfg f = None) features
  end.
Proof.
  induction features as [|f fs IH]; intros st; simpl.
  - exists []. by rewrite !app_nil_r.
  - pose proof (process_feature_outcome st f) as Hf.
    destruct (process_feature geos cfg st f) as [st1| |]; simpl; [|done|].
    + destruct Hf as (a & b & He & Ha & Hb).
      specialize (IH st1).
      destruct (first_pass_from geos cfg st1 fs) as [st2| |]; [|done|].
      * destruct IH as (pairs & HF & Ho & Hw). exists ((a, b) :: pairs).
        split; [by constructor|]. rewrite Ho, Hw, Ha, Hb, <- !app_assoc. done.
      * by apply Exists_cons_tl.
    + by apply Exists_cons_hd.
Qed.

(** The first pass completes exactly when every feature has something to
    emit, and then the collections are the emitted pairs in input order. *)
Lemma first_pass_done features st :
  first_pass geos cfg features = Done st →
  ∃ pairs, Forall2 (λ f p, emitted geos cfg f = Some p) features pairs
           ∧ output_features st = pairs.*1
           ∧ output_features_with_hulls st = pairs.*2.
Proof.
  intros H. pose proof (first_pass_from_outcome features pass_init) as Hp.
  unfold first_pass in H. rewrite H in Hp. done.
Qed.

Lemma first_pass_completes features :
  Forall (λ f, is_Some (emitted geos cfg f)) features →
  ∃ st, first_pass geos cfg features = Done st.
Proof.
  intros Hall. pose proof (first_pass_from_outcome features pass_init) as Hp.
  unfold first_pass. destruct (first_pass_from geos cfg pass_init features) as [st| |].
  - by exists st.
  - done.
  - apply Exists_exists in Hp as (ft & Hin & Hnone).
    rewrite Forall_forall in Hall. apply Hall in Hin. rewrite Hnone in Hin.
    by destruct Hin.
Qed.

Lemma run_never_throws features what :
  run geos cfg features ≠ Throw what.
Proof.
  unfold run. pose proof (first_pass_from_outcome features pass_init) as Hp.
  unfold first_pass. by destruct (first_pass_from geos cfg pass_init features).
Qed.

End FirstPassFacts.

(** ** Facts about the second pass *)

Section SecondPassFacts.
Variable geos : Geos.
Variable cfg : Config.

Local Abbreviation body := (second_pass_body geos cfg).

(** The loop body at a slot holding [feature], by what [resolution] says. *)
Lemma second_pass_body_at st i feature :
  hull_features st !! i = Some feature →
  body st i =
    match resolution geos cfg feature with
    | Untouched => st
    | Pruned larger =>
      {| hull_features := <[i := resolved_feature geos cfg feature]> (hull_features st);
         multi_polygon_names := multi_polygon_names st;
         multi_polygon_features := multi_polygon_features st;
         tiny_polygons_removed := S (tiny_polygons_removed st) |}
    | StillMultiPart =>
      {| hull_features := hull_features st;
         multi_polygon_names :=
           multi_polygon_names st ++ [eapply_name (getProperties feature)];
         multi_polygon_features :=
           multi_polygon_features st ++ [feature_copy feature];
         tiny_polygons_removed := tiny_polygons_removed st |}
    end.
Proof.
  intros Hi. unfold second_pass_body, resolved_feature, resolution. rewrite Hi.
  destruct (getGeometry feature) as [| | | | |parts|]; try reflexivity.
  destruct (Nat.ltb 1 (length parts)); [|reflexivity].
  destruct parts as [|p1 [|p2 [|p3 ps]]]; try reflexivity.
  destruct (larger_poly geos cfg p1 p2); reflexivity.
Qed.

Lemma report_after_step output k feature :
  output !! k = Some feature →
  body (report_after geos cfg output k) k = report_after geos cfg output (S k).
Proof.
  intros Hk.
  assert (Hlen : length (resolved_feature geos cfg <$> take k output) = k).
  { rewrite length_fmap, length_take. apply lookup_lt_Some in Hk. lia. }
  assert (Hslot : hull_features (report_after geos cfg output k) !! k = Some feature).
  { simpl. rewrite lookup_app_r by lia. rewrite Hlen, Nat.sub_diag.
    by rewrite lookup_drop, Nat.add_0_r. }
  rewrite (second_pass_body_at _ _ _ Hslot).
  unfold report_after. rewrite (take_S_r _ _ _ Hk).
  rewrite !List.filter_app, !fmap_app, !length_app. simpl.
  rewrite (drop_S _ _ _ Hk).
  assert (Hs : is_still_multi_part geos cfg feature =
               match resolution geos cfg feature with
               | StillMultiPart => true | _ => false end) by reflexivity.
  assert (Hp : is_pruned geos cfg feature =
               match resolution geos cfg feature with
               | Pruned _ => true | _ => false end) by reflexivity.
  rewrite Hs, Hp.
  destruct (resolution geos cfg feature) eqn:R; simpl.
  - rewrite !app_nil_r, Nat.add_0_r, <- app_assoc. simpl.
    assert (Hr : resolved_feature geos cfg feature = feature)
      by (unfold resolved_feature; by rewrite R).
    by rewrite Hr.
  - rewrite !app_nil_r, <- app_assoc. simpl. f_equal; [|lia].
    rewrite insert_app_r_alt by (by rewrite Hlen).
    rewrite Hlen, Nat.sub_diag. done.
  - rewrite Nat.add_0_r, <- app_assoc. simpl.
    assert (Hr : resolved_feature geos cfg feature = feature)
      by (unfold resolved_feature; by rewrite R).
    by rewrite Hr.
Qed.

Lemma second_pass_prefix (output : list GeoJSONFeature) (k : nat) :
  k ≤ length output →
  foldl body (report_after geos cfg output 0) (seq 0 k) = report_after geos cfg output k.
Proof.
  induction k as [|k IH]; intros Hk; [done|].
  rewrite seq_S, foldl_app, IH by lia. simpl.
  destruct (lookup_lt_is_Some_2 output k) as [f Hf]; [lia|].
  by apply (report_after_step _ _ f).
Qed.

(** The second pass, slot by slot. *)
Lemma second_pass_report output :
  second_pass geos cfg output = report_after geos cfg output (length output).
Proof.
  unfold second_pass. by rewrite <- second_pass_prefix.
Qed.

Lemma second_pass_slot output i feature :
  output !! i = Some feature →
  hull_features (second_pass geos cfg output) !! i
    = Some (resolved_feature geos cfg feature).
Proof.
  intros Hi. rewrite second_pass_report. simpl.
  rewrite firstn_all, drop_all, app_nil_r, list_lookup_fmap, Hi. done.
Qed.

Lemma second_pass_names output name :
  name ∈ multi_polygon_names (second_pass geos cfg output) ↔
  ∃ f, f ∈ output ∧ is_still_multi_part geos cfg f = true
       ∧ name = eapply_name (getProperties f).
Proof.
  rewrite second_pass_report. simpl. rewrite firstn_all, list_elem_of_fmap.
  split.
  - intros (f & -> & Hf). apply list_elem_of_In, List.filter_In in Hf as [Hin Hs].
    exists f. by rewrite list_elem_of_In.
  - intros (f & Hin & Hs & ->). exists f. split; [done|].
    apply list_elem_of_In, List.filter_In. by rewrite <- list_elem_of_In.
Qed.

Lemma second_pass_issue_features output g :
  g ∈ multi_polygon_features (second_pass geos cfg output) ↔
  ∃ f, f ∈ output ∧ is_still_multi_part geos cfg f = true ∧ g = feature_copy f.
Proof.
  rewrite second_pass_report. simpl. rewrite firstn_all, list_elem_of_fmap.
  split.
  - intros (f & -> & Hf). apply list_elem_of_In, List.filter_In in Hf as [Hin Hs].
    exists f. by rewrite list_elem_of_In.
  - intros (f & Hin & Hs & ->). exists f. split; [done|].
    apply list_elem_of_In, List.filter_In. by rewrite <- list_elem_of_In.
Qed.

End SecondPassFacts.

(** ** Facts about the whole run *)

Lemma feature_copy_same feature : feature_copy feature = feature.
Proof. by destruct feature. Qed.

Section RunFacts.
Variable geos : Geos.
Variable cfg : Config.

Lemma first_pass_slot features st i feature :
  first_pass geos cfg features = Done st →
  features !! i = Some feature →
  ∃ a b, emitted geos cfg feature = Some (a, b)
         ∧ output_features st !! i = Some a
         ∧ output_features_with_hulls st !! i = Some b.
Proof.
  intros Hp Hi. apply first_pass_done in Hp as (pairs & HF & -> & ->).
  destruct (Forall2_lookup_l _ _ _ _ _ HF Hi) as ([a b] & Hpi & He).
  exists a, b. rewrite !list_lookup_fmap, Hpi. done.
Qed.

Lemma first_pass_ids features st :
  first_pass geos cfg features = Done st →
  getId <$> output_features st = getId <$> features
  ∧ getId <$> output_features_with_hulls st = getId <$> features.
Proof.
  intros Hp. apply first_pass_done in Hp as (pairs & HF & -> & ->).
  induction HF as [|f [a b] fs ps He HF IH]; [done|].
  destruct IH as [IH1 IH2]. rewrite !fmap_cons, IH1, IH2. simpl.
  assert (getId a = getId f ∧ getId b = getId f) as [-> ->]; [|done].
  unfold emitted in He.
  destruct (negb (should_process cfg (getProperties f))).
  { injection He as <- <-. done. }
  destruct (getGeometry f); try (injection He as <- <-; done).
  destruct (getProperties f !! "name311"); [|done].
  destruct (hull (search geos cfg (GMultiPolygon parts))); [|done].
  injection He as <- <-. done.
Qed.

Lemma run_done features r :
  run geos cfg features = Done r →
  ∃ st, first_pass geos cfg features = Done st
        ∧ hulls_collection r = hull_features (second_pass geos cfg (output_features st))
        ∧ with_hulls_collection r = output_features_with_hulls st
        ∧ unresolved_names r = multi_polygon_names (second_pass geos cfg (output_features st))
        ∧ issue_features r = multi_polygon_features (second_pass geos cfg (output_features st))
        ∧ tiny_removed r = tiny_polygons_removed (second_pass geos cfg (output_features st)).
Proof.
  unfold run. destruct (first_pass geos cfg features) as [st| |]; simpl; [|done|done].
  intros [= <-]. exists st. done.
Qed.

Lemma run_completes features :
  Forall (λ f, is_Some (emitted geos cfg f)) features →
  ∃ r, run geos cfg features = Done r.
Proof.
  intros H. apply first_pass_completes in H as [st Hst].
  unfold run. rewrite Hst. simpl. eauto.
Qed.

(** What a feature that goes through the hull search emits. *)
Lemma emitted_hull feature parts a b :
  should_process cfg (getProperties feature) = true →
  getGeometry feature = GMultiPolygon parts →
  emitted geos cfg feature = Some (a, b) →
  ∃ h, hull (search geos cfg (getGeometry feature)) = Some h
       ∧ a = mkFeature h (getProperties feature) (getId feature)
       ∧ b = mkFeature (getGeometry feature)
               (<["concave_hull_polygon" := JString (write geos h)]>
                  (getProperties feature))
               (getId feature).
Proof.
  intros Hs Hg. unfold emitted. rewrite Hs, Hg. simpl. rewrite <- Hg.
  destruct (getProperties feature !! "name311"); [|done].
  destruct (hull (search geos cfg (getGeometry feature))) as [h|]; [|done].
  intros [= <- <-]. exists h. done.
Qed.

(** What a feature that is kept as it is emits. *)
Lemma emitted_pass_through feature a b :
  should_process cfg (getProperties feature) = false
  ∨ getGeometryTypeId (getGeometry feature) ≠ GEOS_MULTIPOLYGON →
  emitted geos cfg feature = Some (a, b) →
  a = feature ∧ b = feature.
Proof.
  unfold emitted. intros [Hs | Hg].
  - rewrite Hs. simpl. rewrite feature_copy_same. by intros [= <- <-].
  - destruct (negb (should_process cfg (getProperties feature)));
      [rewrite feature_copy_same; by intros [= <- <-]|].
    destruct (getGeometry feature); try done;
      rewrite feature_copy_same; by intros [= <- <-].
Qed.

Lemma resolved_feature_keeps feature :
  getProperties (resolved_feature geos cfg feature) = getProperties feature
  ∧ getId (resolved_feature geos cfg feature) = getId feature.
Proof. unfold resolved_feature. by destruct (resolution geos cfg feature). Qed.

Lemma resolution_not_multi_polygon feature :
  getGeometryTypeId (getGeometry feature) ≠ GEOS_MULTIPOLYGON →
  resolution geos cfg feature = Untouched.
Proof. unfold resolution. by destruct (getGeometry feature). Qed.

Lemma resolution_single_polygon h properties id :
  is_single_polygon h = true →
  resolution geos cfg (mkFeature h properties id) = Untouched.
Proof.
  unfold resolution. simpl. destruct h as [| | | | |parts|]; try done.
  simpl. intros Hn. apply Nat.eqb_eq in Hn. by rewrite Hn.
Qed.

(** A search in which every kernel call throws leaves the hull null. *)
Lemma search_loop_all_throw geom remaining st :
  (∀ t, ∃ what, concaveHullByLength geos geom t true false = Throws what) →
  hull (search_loop geos cfg geom remaining st) = hull st
  ∧ attempts (search_loop geos cfg geom remaining st) = attempts st + remaining
  ∧ length (thresholds_tried (search_loop geos cfg geom remaining st))
    = length (thresholds_tried st) + remaining.
Proof.
  intros Hall. revert st. induction remaining as [|rem IH]; intros st.
  - simpl. split_and!; [done | lia | lia].
  - destruct (Hall (current_threshold st)) as [what K].
    rewrite (search_loop_throws _ _ _ _ _ _ K).
    destruct (IH {| hull := hull st;
                    current_threshold :=
                      float_add (current_threshold st) (CONCAVE_HULL_LENGTH_INCREMENT cfg);
                    attempts := S (attempts st);
                    thresholds_tried :=
                      thresholds_tried st ++ [current_threshold st] |})
      as (Hh & Ha & Hl).
    simpl in Hh, Ha, Hl. rewrite Hh, Ha, Hl, length_app. simpl.
    split_and!; [done | lia | lia].
Qed.

End RunFacts.

(** * The claims *)

(** ** The threshold search *)

(** C4, as amended. For every input multi-polygon, the number of attempts
    the threshold search uses (the number of kernel invocations) lies
    between 1 and [MAX_ATTEMPTS] inclusive, and the threshold handed to the
    kernel on the final attempt is [T0] after [attempts used - 1] float
    additions of [dT], each rounded to single precision. When the search
    ends by acceptance, the attempts used are the loop counter plus one, the
    count the program prints; otherwise the whole budget was used. *)
Theorem search_attempts_within_budget geos cfg geom :
  0 < MAX_ATTEMPTS cfg →
  let s := search geos cfg geom in
  1 ≤ attempts_used s ≤ MAX_ATTEMPTS cfg
  ∧ thresholds_tried s =
      escalation (CONCAVE_HULL_LENGTH_THRESHOLD cfg)
                 (CONCAVE_HULL_LENGTH_INCREMENT cfg) (attempts_used s)
  ∧ last (thresholds_tried s) =
      Some (raised (CONCAVE_HULL_LENGTH_THRESHOLD cfg)
                   (CONCAVE_HULL_LENGTH_INCREMENT cfg) (attempts_used s - 1))
  ∧ ((attempts s < MAX_ATTEMPTS cfg
      ∧ attempts_used s = attempts_logged s
      ∧ last (thresholds_tried s) = Some (current_threshold s)
      ∧ ∃ h, hull s = Some h ∧ is_single_polygon h = true)
     ∨ (attempts s = MAX_ATTEMPTS cfg ∧ attempts_used s = MAX_ATTEMPTS cfg)).
Proof.
  intros Hpos s.
  destruct (search_loop_exit geos cfg geom (MAX_ATTEMPTS cfg) (search_init cfg))
    as (n & k & Ht & Ha & Hc & Hend).
  fold (search geos cfg geom) in Ht, Ha, Hc, Hend. fold s in Ht, Ha, Hc, Hend.
  simpl in Ht, Ha, Hc.
  assert (Hused : attempts_used s = n).
  { unfold attempts_used. by rewrite Ht, escalation_length. }
  assert (Hn : 1 ≤ n ≤ MAX_ATTEMPTS cfg).
  { destruct Hend as [[_ ->] | (Hk & -> & _)]; lia. }
  rewrite Hused. split_and!; [lia | lia | done | |].
  - rewrite Ht. apply escalation_last. lia.
  - unfold attempts_logged. rewrite Ha.
    destruct Hend as [[-> ->] | (Hk & -> & Hh)]; [by right | left].
    split_and!; [done | lia | | done].
    rewrite Ht, escalation_last, Hc by lia. do 2 f_equal. lia.
Qed.

Lemma search_attempts_within_budget_witness :
  let s := search (geos_steps (1 # 1000) (1 # 500) field) source_config
             (GMultiPolygon [block; field]) in
  1 ≤ attempts_used s ≤ 100.
Proof.
  intros s.
  apply (search_attempts_within_budget (geos_steps (1 # 1000) (1 # 500) field)
           source_config (GMultiPolygon [block; field])).
  simpl. lia.
Defined.

(** C4, as stated, fails. With the compiled constants and a kernel that
    first returns a single polygon at the tenth attempt, the threshold of
    that attempt is [T0] after nine rounded float additions of [dT], which
    is not the number [T0 + 9 dT]; the program prints 10 attempts and 229
    meters where [50 + 20 * 9] is 230. *)
Lemma final_threshold_is_rounded_counterexample :
  let s := search (geos_steps 0 (2 # 1000) field) source_config
             (GMultiPolygon [block; field]) in
  attempts_used s = 10
  ∧ attempts_logged s = 10
  ∧ last (thresholds_tried s) = Some (current_threshold s)
  ∧ ¬ (value (current_threshold s)
         == value (CONCAVE_HULL_LENGTH_THRESHOLD source_config)
            + 9 * value (CONCAVE_HULL_LENGTH_INCREMENT source_config))%Q
  ∧ final_threshold_meters s = 229%Z.
Proof.
  intros s. split_and!; try (vm_compute; reflexivity).
  vm_compute. discriminate.
Qed.

(** A search that uses up its budget: the loop counter ends at
    [MAX_ATTEMPTS], so the count printed at line 239 is one more than the
    number of kernel calls, and [current_threshold] is one increment above
    the last threshold tried. *)
Example exhausted_search_counts :
  let s := search geos_echo (small_config ∅) (GMultiPolygon [block; field]) in
  attempts_used s = 4 ∧ attempts s = 4 ∧ attempts_logged s = 5
  ∧ (λ t, Qred (value t)) <$> thresholds_tried s = [1 # 2; 3 # 4; 1; 5 # 4]%Q
  ∧ Qred (value (current_threshold s)) = (3 # 2)%Q
  ∧ hull s = Some (GMultiPolygon [block; field]).
Proof. vm_compute. split_and!; reflexivity. Qed.

(** A search that is accepted at its third attempt, after one kernel
    failure and one two-part result. *)
Example accepted_search_counts :
  let s := search (geos_steps (3 # 4) 1 field) (small_config ∅)
             (GMultiPolygon [block; field]) in
  attempts_used s = 3 ∧ attempts s = 2 ∧ attempts_logged s = 3
  ∧ hull s = Some (GPolygon field)
  ∧ Qred (value (current_threshold s)) = 1%Q.
Proof. vm_compute. split_and!; reflexivity. Qed.

(** The compiled constants: meters per degree, the first threshold and the
    increment as floats, the tiny-polygon threshold as a double. *)
Example source_constants_values :
  Qred (value METERS_PER_DEGREE) = (14248947 # 128)%Q
  ∧ CONCAVE_HULL_LENGTH_THRESHOLD source_config
    = SpecFloat.S754_finite false 15432883 (-35)
  ∧ CONCAVE_HULL_LENGTH_INCREMENT source_config
    = SpecFloat.S754_finite false 12346306 (-36)
  ∧ truncate (TINY_POLYGON_AREA_THRESHOLD source_config * (10 ^ 17)) = 4034822358%Z.
Proof. vm_compute. split_and!; reflexivity. Qed.

(** When a kernel invocation throws, the search loop catches it on the
    spot: the hull is left as it was, the threshold is raised by a float
    addition of [dT], the attempt counter is incremented and the loop goes
    on, calling the kernel again at the raised threshold while budget
    remains. *)
Lemma kernel_failure_escalates geos cfg geom remaining st what :
  concaveHullByLength geos geom (current_threshold st) true false = Throws what →
  search_loop geos cfg geom (S remaining) st =
    search_loop geos cfg geom remaining
      {| hull := hull st;
         current_threshold :=
           float_add (current_threshold st) (CONCAVE_HULL_LENGTH_INCREMENT cfg);
         attempts := S (attempts st);
         thresholds_tried := thresholds_tried st ++ [current_threshold st] |}
  ∧ (0 < remaining →
     ∃ rest, thresholds_tried (search_loop geos cfg geom (S remaining) st) =
               thresholds_tried st
               ++ current_threshold st
                  :: float_add (current_threshold st) (CONCAVE_HULL_LENGTH_INCREMENT cfg)
                  :: rest).
Proof.
  intros K. split.
  - by apply search_loop_throws with what.
  - intros Hrem. rewrite (search_loop_throws _ _ _ _ _ _ K).
    destruct (search_loop_exit geos cfg geom remaining
                {| hull := hull st;
                   current_threshold :=
                     float_add (current_threshold st) (CONCAVE_HULL_LENGTH_INCREMENT cfg);
                   attempts := S (attempts st);
                   thresholds_tried := thresholds_tried st ++ [current_threshold st] |})
      as (n & k & Ht & _ & _ & Hend).
    simpl in Ht. rewrite Ht, <- app_assoc. simpl.
    destruct n as [|n]; [destruct Hend as [[_ <-] | (_ & [=] & _)]; lia|].
    simpl. by eexists.
Qed.

(** C1. The claim is that a multi-polygon feature whose every kernel call
    throws ends as an unresolved feature without a crash. In the program the
    search then uses all its attempts and leaves [hull] null, and line 244
    dereferences it: the feature's processing, and with it any run that
    contains the feature, ends in undefined behaviour instead. *)
Theorem all_attempts_throw_null_hull geos cfg feature parts :
  should_process cfg (getProperties feature) = true →
  getGeometry feature = GMultiPolygon parts →
  is_Some (getProperties feature !! "name311") →
  (∀ t, ∃ what,
     concaveHullByLength geos (getGeometry feature) t true false = Throws what) →
  attempts_used (search geos cfg (getGeometry feature)) = MAX_ATTEMPTS cfg
  ∧ hull (search geos cfg (getGeometry feature)) = None
  ∧ (∀ st, process_feature geos cfg st feature = Undefined NullHullDeref)
  ∧ main_exit (run geos cfg [feature]) = Crashed NullHullDeref
  ∧ (∀ before after r, run geos cfg (before ++ feature :: after) ≠ Done r).
Proof.
  intros Hs Hg Hname Hall.
  destruct (search_loop_all_throw geos cfg (getGeometry feature)
              (MAX_ATTEMPTS cfg) (search_init cfg) Hall) as (Hh & _ & Hl).
  fold (search geos cfg (getGeometry feature)) in Hh, Hl. simpl in Hh, Hl.
  assert (Hpf : ∀ st, process_feature geos cfg st feature = Undefined NullHullDeref).
  { intros st. unfold process_feature. rewrite Hs, Hg. simpl.
    rewrite print_name311_done by done. simpl. rewrite <- Hg, Hh. done. }
  split_and!; [done | done | done | |].
  - unfold run, first_pass. simpl. by rewrite Hpf.
  - intros before after r Hr. apply run_done in Hr as (st & Hp & _).
    destruct (first_pass_slot geos cfg _ st (length before) feature Hp)
      as (a & b & He & _).
    { by rewrite list_lookup_middle. }
    destruct (emitted_hull geos cfg feature parts a b Hs Hg He) as (h & Hsome & _).
    congruence.
Qed.

Lemma all_attempts_throw_null_hull_witness :
  main_exit (run geos_throws source_config
               [park "Prospect Park" (GMultiPolygon [block; field])])
  = Crashed NullHullDeref.
Proof.
  apply (all_attempts_throw_null_hull geos_throws source_config
           (park "Prospect Park" (GMultiPolygon [block; field])) [block; field]).
  - vm_compute. reflexivity.
  - reflexivity.
  - eexists. vm_compute. reflexivity.
  - intros t. eexists. reflexivity.
Defined.

(** ** The tiny-fragment resolver *)

Section ResolverFacts.
Variable geos : Geos.
Variable cfg : Config.

Local Abbreviation area := (getArea geos).
Local Abbreviation tiny := (TINY_POLYGON_AREA_THRESHOLD cfg).

Lemma larger_poly_first_tiny poly1 poly2 :
  (area poly1 < tiny)%Q → (tiny <= area poly2)%Q →
  larger_poly geos cfg poly1 poly2 = Some poly2.
Proof.
  intros H1 H2. unfold larger_poly.
  assert (Qltb (area poly1) (area poly2) = true) as ->
    by (apply Qltb_lt; by apply Qlt_le_trans with tiny).
  assert (Qltb (area poly1) tiny = true) as -> by (by apply Qltb_lt).
  done.
Qed.

Lemma larger_poly_second_tiny poly1 poly2 :
  (area poly2 < tiny)%Q → (tiny <= area poly1)%Q →
  larger_poly geos cfg poly1 poly2 = Some poly1.
Proof.
  intros H2 H1. unfold larger_poly.
  assert (Hlt : (area poly2 < area poly1)%Q) by (by apply Qlt_le_trans with tiny).
  assert (Qltb (area poly1) (area poly2) = false) as ->
    by (apply Qltb_ge; by apply Qlt_le_weak).
  assert (Qltb (area poly2) (area poly1) = true) as -> by (by apply Qltb_lt).
  assert (Qltb (area poly2) tiny = true) as -> by (by apply Qltb_lt).
  done.
Qed.

Lemma larger_poly_both_large poly1 poly2 :
  (tiny <= area poly1)%Q → (tiny <= area poly2)%Q →
  larger_poly geos cfg poly1 poly2 = None.
Proof.
  intros H1 H2. unfold larger_poly.
  assert (Qltb (area poly1) tiny = false) as -> by (by apply Qltb_ge).
  assert (Qltb (area poly2) tiny = false) as -> by (by apply Qltb_ge).
  by rewrite !andb_false_r.
Qed.

Lemma larger_poly_equal poly1 poly2 :
  (area poly1 == area poly2)%Q →
  larger_poly geos cfg poly1 poly2 = None.
Proof.
  intros He. unfold larger_poly.
  assert (Qltb (area poly1) (area poly2) = false) as ->
    by (apply Qltb_ge; rewrite He; apply Qle_refl).
  assert (Qltb (area poly2) (area poly1) = false) as ->
    by (apply Qltb_ge; rewrite He; apply Qle_refl).
  done.
Qed.

Lemma resolution_two_parts feature poly1 poly2 :
  getGeometry feature = GMultiPolygon [poly1; poly2] →
  resolution geos cfg feature =
    match larger_poly geos cfg poly1 poly2 with
    | Some larger => Pruned larger
    | None => StillMultiPart
    end.
Proof. intros Hg. unfold resolution. by rewrite Hg. Qed.

Lemma resolution_many_parts feature parts :
  getGeometry feature = GMultiPolygon parts →
  2 < length parts →
  resolution geos cfg feature = StillMultiPart.
Proof.
  intros Hg Hn. unfold resolution. rewrite Hg.
  destruct parts as [|p1 [|p2 [|p3 ps]]]; simpl in Hn; try lia. done.
Qed.

Lemma still_multi_part_left_unresolved feature :
  resolution geos cfg feature = StillMultiPart →
  left_unresolved geos cfg feature.
Proof.
  intros R.
  assert (Hs : is_still_multi_part geos cfg feature = true)
    by (unfold is_still_multi_part; by rewrite R).
  split.
  - intros st i Hi. rewrite (second_pass_body_at _ _ _ _ _ Hi), R.
    by rewrite feature_copy_same.
  - intros output i Hi. split_and!.
    + rewrite (second_pass_slot _ _ _ _ _ Hi). unfold resolved_feature. by rewrite R.
    + apply second_pass_names. exists feature. split_and!; [|done|done].
      by apply list_elem_of_lookup_2 with i.
    + apply second_pass_issue_features. exists feature.
      rewrite feature_copy_same. split_and!; [|done|done].
      by apply list_elem_of_lookup_2 with i.
Qed.

Lemma pruned_resolution_pruned_to feature kept :
  resolution geos cfg feature = Pruned kept →
  pruned_to geos cfg feature kept.
Proof.
  intros R. split_and!.
  - intros st i Hi. rewrite (second_pass_body_at _ _ _ _ _ Hi), R.
    unfold resolved_feature. by rewrite R.
  - intros output i Hi. rewrite (second_pass_slot _ _ _ _ _ Hi).
    unfold resolved_feature. by rewrite R.
  - unfold is_still_multi_part. by rewrite R.
Qed.

End ResolverFacts.

(** C2, as amended. A two-part multi-polygon reaching the resolver whose
    part areas are both at or above the area threshold, or both strictly
    below it and equal to each other, is left unresolved: it keeps both
    parts and is recorded in the unresolved list. *)
Theorem two_parts_left_unresolved geos cfg feature poly1 poly2 :
  getGeometry feature = GMultiPolygon [poly1; poly2] →
  ((getArea geos poly1 < TINY_POLYGON_AREA_THRESHOLD cfg
    ∧ getArea geos poly2 < TINY_POLYGON_AREA_THRESHOLD cfg
    ∧ getArea geos poly1 == getArea geos poly2)
   ∨ (TINY_POLYGON_AREA_THRESHOLD cfg <= getArea geos poly1
      ∧ TINY_POLYGON_AREA_THRESHOLD cfg <= getArea geos poly2))%Q →
  left_unresolved geos cfg feature.
Proof.
  intros Hg Hareas. apply still_multi_part_left_unresolved.
  rewrite (resolution_two_parts _ _ _ _ _ Hg).
  destruct Hareas as [(_ & _ & He) | [H1 H2]].
  - by rewrite larger_poly_equal.
  - by rewrite larger_poly_both_large.
Qed.

Lemma two_parts_left_unresolved_witness :
  left_unresolved geos_echo (small_config ∅) (park "Marine Park" (GMultiPolygon [block; field]))
  ∧ left_unresolved geos_echo (small_config ∅) (park "Marine Park" (GMultiPolygon [speck; speck])).
Proof.
  split.
  - apply (two_parts_left_unresolved geos_echo (small_config ∅)
             (park "Marine Park" (GMultiPolygon [block; field])) block field eq_refl).
    right. split; vm_compute; discriminate.
  - apply (two_parts_left_unresolved geos_echo (small_config ∅)
             (park "Marine Park" (GMultiPolygon [speck; speck])) speck speck eq_refl).
    left. split_and!; vm_compute; reflexivity.
Defined.

(** C2, as stated, fails: both parts of this feature are strictly below the
    area threshold, yet the resolver discards the smaller one, so the
    feature neither keeps both parts nor is recorded as unresolved. *)
Lemma both_parts_tiny_counterexample :
  let cfg := small_config ∅ in
  let feature := park "Marine Park" (GMultiPolygon [sliver; speck]) in
  (getArea geos_echo sliver < TINY_POLYGON_AREA_THRESHOLD cfg)%Q
  ∧ (getArea geos_echo speck < TINY_POLYGON_AREA_THRESHOLD cfg)%Q
  ∧ hull_features (second_pass geos_echo cfg [feature])
    = [mkFeature (GPolygon speck) (getProperties feature) (getId feature)]
  ∧ multi_polygon_names (second_pass geos_echo cfg [feature]) = []
  ∧ ¬ left_unresolved geos_echo cfg feature.
Proof.
  intros cfg feature. split_and!; try (vm_compute; reflexivity).
  intros [_ H]. destruct (H [feature] 0 eq_refl) as (Hslot & _).
  vm_compute in Hslot. discriminate Hslot.
Qed.

(** Two parts strictly below the threshold with different areas: the
    smaller one is discarded. *)
Lemma two_tiny_parts_smaller_discarded geos cfg feature poly1 poly2 :
  getGeometry feature = GMultiPolygon [poly1; poly2] →
  (getArea geos poly1 < getArea geos poly2)%Q →
  (getArea geos poly2 < TINY_POLYGON_AREA_THRESHOLD cfg)%Q →
  pruned_to geos cfg feature poly2.
Proof.
  intros Hg H12 H2. apply pruned_resolution_pruned_to.
  rewrite (resolution_two_parts _ _ _ _ _ Hg). unfold larger_poly.
  assert (Qltb (getArea geos poly1) (getArea geos poly2) = true) as ->
    by (by apply Qltb_lt).
  assert (Qltb (getArea geos poly1) (TINY_POLYGON_AREA_THRESHOLD cfg) = true) as ->
    by (apply Qltb_lt; by apply Qlt_trans with (getArea geos poly2)).
  done.
Qed.

(** C6. A two-part multi-polygon reaching the resolver with one part
    strictly below the area threshold and the other at or above it has its
    geometry replaced by exactly the larger part; it is not recorded as
    unresolved and the tiny-polygon counter is incremented. *)
Theorem tiny_fragment_is_discarded geos cfg feature parts small large :
  getGeometry feature = GMultiPolygon parts →
  parts = [small; large] ∨ parts = [large; small] →
  (getArea geos small < TINY_POLYGON_AREA_THRESHOLD cfg)%Q →
  (TINY_POLYGON_AREA_THRESHOLD cfg <= getArea geos large)%Q →
  pruned_to geos cfg feature large.
Proof.
  intros Hg Hparts Hs Hl. apply pruned_resolution_pruned_to.
  destruct Hparts as [-> | ->]; rewrite (resolution_two_parts _ _ _ _ _ Hg).
  - by rewrite larger_poly_first_tiny.
  - by rewrite larger_poly_second_tiny.
Qed.

Lemma tiny_fragment_is_discarded_witness :
  pruned_to geos_echo (small_config ∅)
    (park "Marine Park" (GMultiPolygon [sliver; block])) block
  ∧ pruned_to geos_echo (small_config ∅)
      (park "Marine Park" (GMultiPolygon [block; sliver])) block.
Proof.
  split.
  - apply (tiny_fragment_is_discarded geos_echo (small_config ∅)
             (park "Marine Park" (GMultiPolygon [sliver; block]))
             [sliver; block] sliver block eq_refl).
    + by left.
    + vm_compute. reflexivity.
    + vm_compute. discriminate.
  - apply (tiny_fragment_is_discarded geos_echo (small_config ∅)
             (park "Marine Park" (GMultiPolygon [block; sliver]))
             [block; sliver] sliver block eq_refl).
    + by right.
    + vm_compute. reflexivity.
    + vm_compute. discriminate.
Defined.

(** C9. A feature of the hull-only collection whose geometry is a
    multi-polygon of more than two parts is never pruned: it stays in its
    slot with all its parts and is recorded in the unresolved list. *)
Theorem more_than_two_parts_left_unresolved geos cfg feature parts :
  getGeometry feature = GMultiPolygon parts →
  2 < length parts →
  left_unresolved geos cfg feature.
Proof.
  intros Hg Hn. apply still_multi_part_left_unresolved.
  by apply resolution_many_parts with parts.
Qed.

Lemma more_than_two_parts_left_unresolved_witness :
  left_unresolved geos_echo (small_config ∅)
    (park "Marine Park" (GMultiPolygon [sliver; block; field])).
Proof.
  apply (more_than_two_parts_left_unresolved geos_echo (small_config ∅)
           (park "Marine Park" (GMultiPolygon [sliver; block; field]))
           [sliver; block; field] eq_refl).
  simpl. lia.
Defined.

(** ** The two output collections *)

Section OutputFacts.
Variable geos : Geos.
Variable cfg : Config.

Lemma second_pass_collection output :
  hull_features (second_pass geos cfg output) = resolved_feature geos cfg <$> output.
Proof.
  rewrite second_pass_report. simpl. by rewrite firstn_all, drop_all, app_nil_r.
Qed.

(** Slot [i] of both written collections, from the input feature at [i]. *)
Lemma run_slot features r i feature :
  run geos cfg features = Done r →
  features !! i = Some feature →
  ∃ a b, emitted geos cfg feature = Some (a, b)
         ∧ hulls_collection r !! i = Some (resolved_feature geos cfg a)
         ∧ with_hulls_collection r !! i = Some b.
Proof.
  intros Hr Hi. apply run_done in Hr as (st & Hp & -> & -> & _).
  destruct (first_pass_slot geos cfg features st i feature Hp Hi)
    as (a & b & He & Ha & Hb).
  exists a, b. split_and!; [done | | done].
  by apply second_pass_slot.
Qed.

(** A feature that is kept as it is reaches the annotated collection
    unchanged; in the hull-only collection it is still subject to the
    second pass, which leaves anything but a multi-polygon alone. *)
Lemma pass_through_outputs features r i feature :
  run geos cfg features = Done r →
  features !! i = Some feature →
  should_process cfg (getProperties feature) = false
  ∨ getGeometryTypeId (getGeometry feature) ≠ GEOS_MULTIPOLYGON →
  with_hulls_collection r !! i = Some feature
  ∧ hulls_collection r !! i = Some (resolved_feature geos cfg feature)
  ∧ (getGeometryTypeId (getGeometry feature) ≠ GEOS_MULTIPOLYGON →
     hulls_collection r !! i = Some feature).
Proof.
  intros Hr Hi Hkeep.
  destruct (run_slot features r i feature Hr Hi) as (a & b & He & Ha & Hb).
  destruct (emitted_pass_through geos cfg feature a b Hkeep He) as [-> ->].
  split_and!; [done | done |].
  intros Hg. rewrite Ha. unfold resolved_feature.
  by rewrite resolution_not_multi_polygon.
Qed.

End OutputFacts.

(** C3. The claim is that a feature excluded by the whitelist, or whose
    geometry is not a multi-polygon, has its input geometry in both output
    collections. The second pass runs over every slot of the hull-only
    collection, including the features the first pass kept "as-is". With
    the program's thresholds and one name in the whitelist, an excluded
    feature whose two-part geometry has a part of area 1e-8 square degrees
    (below the tiny-polygon threshold of about 4.03e-8) loses that part in
    the hull-only collection. *)
Theorem skipped_two_part_feature_is_pruned :
  let cfg := source_constants {["Prospect Park"]} in
  let feature := park "Other Park" (GMultiPolygon [crumb; block]) in
  should_process cfg (getProperties feature) = false
  ∧ (getArea geos_echo crumb < TINY_POLYGON_AREA_THRESHOLD cfg)%Q
  ∧ ∃ r, run geos_echo cfg [feature] = Done r
         ∧ skipped_count r = 1
         ∧ with_hulls_collection r = [feature]
         ∧ hulls_collection r
           = [mkFeature (GPolygon block) (getProperties feature) (getId feature)]
         ∧ getGeometry <$> hulls_collection r ≠ [getGeometry feature].
Proof.
  intros cfg feature. split; [vm_compute; reflexivity|].
  split; [vm_compute; reflexivity|].
  eexists. split; [vm_compute; reflexivity|].
  split_and!; try (vm_compute; reflexivity).
  vm_compute. discriminate.
Qed.

(** C5. After a run that completes, the hull-only and the annotated
    collection have the length of the input sequence and carry the input's
    feature identifiers in the input's order; slot [i] of each collection
    stems from input feature [i]. *)
Theorem output_collections_correspond geos cfg features r :
  run geos cfg features = Done r →
  length (hulls_collection r) = length features
  ∧ length (with_hulls_collection r) = length features
  ∧ getId <$> hulls_collection r = getId <$> features
  ∧ getId <$> with_hulls_collection r = getId <$> features
  ∧ (∀ i feature, features !! i = Some feature →
       ∃ a b, emitted geos cfg feature = Some (a, b)
              ∧ hulls_collection r !! i = Some (resolved_feature geos cfg a)
              ∧ with_hulls_collection r !! i = Some b).
Proof.
  intros Hr.
  assert (Hids : getId <$> hulls_collection r = getId <$> features
                 ∧ getId <$> with_hulls_collection r = getId <$> features).
  { pose proof Hr as Hr'. apply run_done in Hr' as (st & Hp & -> & -> & _).
    destruct (first_pass_ids geos cfg features st Hp) as [H1 H2].
    split; [|done]. rewrite second_pass_collection, <- H1, <- list_fmap_compose.
    apply list_fmap_ext. intros _ f _. simpl.
    apply (resolved_feature_keeps geos cfg f). }
  destruct Hids as [H1 H2]. split_and!; [| | done | done |].
  - by rewrite <- (length_fmap getId), H1, length_fmap.
  - by rewrite <- (length_fmap getId), H2, length_fmap.
  - intros i feature Hi. by apply run_slot with features.
Qed.

Lemma output_collections_correspond_witness :
  ∃ r, run (geos_steps (3 # 4) 1 field) (small_config {["Prospect Park"]})
         [park "Other Park" (GMultiPolygon [sliver; block]);
          park "Prospect Park" (GMultiPolygon [block; field]);
          park "Prospect Park" (GPolygon block)] = Done r
       ∧ getId <$> hulls_collection r = ["Other Park"; "Prospect Park"; "Prospect Park"]
       ∧ getId <$> with_hulls_collection r
         = ["Other Park"; "Prospect Park"; "Prospect Park"].
Proof.
  eexists. split; [vm_compute; reflexivity|].
  split;
    apply (output_collections_correspond (geos_steps (3 # 4) 1 field)
             (small_config {["Prospect Park"]})
             [park "Other Park" (GMultiPolygon [sliver; block]);
              park "Prospect Park" (GMultiPolygon [block; field]);
              park "Prospect Park" (GPolygon block)]);
    vm_compute; reflexivity.
Defined.

(** C8, as amended. In a run that completes, a whitelist-included
    multi-polygon feature appears in the annotated collection with its
    original geometry and its property table augmented, under the key
    [concave_hull_polygon], with the string that serializes the hull the
    search returned. The hull-only collection holds the original properties
    and identifier with that hull as geometry, except that a two-part hull
    whose smaller part is below the area threshold is replaced there by its
    larger part. *)
Theorem hull_feature_construction geos cfg features r i feature parts :
  run geos cfg features = Done r →
  features !! i = Some feature →
  should_process cfg (getProperties feature) = true →
  getGeometry feature = GMultiPolygon parts →
  ∃ h st hull_feature,
    hull (search geos cfg (getGeometry feature)) = Some h
    ∧ with_hulls_collection r !! i =
        Some (mkFeature (getGeometry feature)
                (<["concave_hull_polygon" := JString (write geos h)]>
                   (getProperties feature))
                (getId feature))
    ∧ first_pass geos cfg features = Done st
    ∧ output_features st !! i =
        Some (mkFeature h (getProperties feature) (getId feature))
    ∧ hulls_collection r !! i = Some hull_feature
    ∧ getProperties hull_feature = getProperties feature
    ∧ getId hull_feature = getId feature
    ∧ getGeometry hull_feature =
        match h with
        | GMultiPolygon [poly1; poly2] =>
          match larger_poly geos cfg poly1 poly2 with
          | Some kept => GPolygon kept
          | None => h
          end
        | _ => h
        end.
Proof.
  intros Hr Hi Hs Hg.
  destruct (run_slot geos cfg features r i feature Hr Hi) as (a & b & He & Ha & Hb).
  destruct (emitted_hull geos cfg feature parts a b Hs Hg He) as (h & Hh & -> & ->).
  pose proof Hr as Hr'. apply run_done in Hr' as (st & Hp & _).
  destruct (first_pass_slot geos cfg features st i feature Hp Hi)
    as (a' & b' & He' & Ha' & _).
  rewrite He in He'. injection He' as <- _.
  exists h, st, (resolved_feature geos cfg
                   (mkFeature h (getProperties feature) (getId feature))).
  split_and!; try done.
  - apply (resolved_feature_keeps geos cfg
             (mkFeature h (getProperties feature) (getId feature))).
  - apply (resolved_feature_keeps geos cfg
             (mkFeature h (getProperties feature) (getId feature))).
  - unfold resolved_feature, resolution. simpl.
    destruct h as [| | | | |hull_parts|]; try done.
    destruct hull_parts as [|p1 [|p2 [|p3 ps]]]; try done. simpl.
    by destruct (larger_poly geos cfg p1 p2).
Qed.

Lemma hull_feature_construction_witness :
  ∃ r, run (geos_steps (3 # 4) 1 field) (small_config {["Prospect Park"]})
         [park "Other Park" (GMultiPolygon [sliver; block]);
          park "Prospect Park" (GMultiPolygon [block; field])] = Done r
       ∧ ∃ h, hull (search (geos_steps (3 # 4) 1 field)
                      (small_config {["Prospect Park"]})
                      (GMultiPolygon [block; field])) = Some h
              ∧ getProperties <$> with_hulls_collection r !! 1 =
                  Some (<["concave_hull_polygon" := JString (sample_write h)]>
                          (getProperties (park "Prospect Park" (GMultiPolygon [block; field])))).
Proof.
  eexists. split; [vm_compute; reflexivity|].
  match goal with |- context [with_hulls_collection ?r] =>
    destruct (hull_feature_construction (geos_steps (3 # 4) 1 field)
                (small_config {["Prospect Park"]})
                [park "Other Park" (GMultiPolygon [sliver; block]);
                 park "Prospect Park" (GMultiPolygon [block; field])]
                r 1 (park "Prospect Park" (GMultiPolygon [block; field]))
                [block; field])
      as (h & st & hf & Hh & Hw & _)
  end.
  - vm_compute. reflexivity.
  - reflexivity.
  - vm_compute. reflexivity.
  - reflexivity.
  - exists h. split; [exact Hh|]. rewrite Hw. reflexivity.
Defined.

(** C8, as stated, fails. With the program's constants, the search of this
    feature ends after 100 attempts with the two-part hull the kernel keeps
    returning; the annotated collection serializes that hull, but the
    hull-only collection holds only the larger part, not the hull. *)
Lemma pruned_hull_counterexample :
  let feature := park "Marine Park" (GMultiPolygon [crumb; block]) in
  let hull_geometry := GMultiPolygon [crumb; block] in
  should_process source_config (getProperties feature) = true
  ∧ hull (search geos_echo source_config (getGeometry feature)) = Some hull_geometry
  ∧ ∃ r, run geos_echo source_config [feature] = Done r
         ∧ with_hulls_collection r
           = [mkFeature (getGeometry feature)
                (<["concave_hull_polygon" := JString (write geos_echo hull_geometry)]>
                   (getProperties feature))
                (getId feature)]
         ∧ hulls_collection r
           = [mkFeature (GPolygon block) (getProperties feature) (getId feature)]
         ∧ hulls_collection r
           ≠ [mkFeature hull_geometry (getProperties feature) (getId feature)].
Proof.
  intros feature hull_geometry. split; [vm_compute; reflexivity|].
  split; [vm_compute; reflexivity|].
  eexists. split; [vm_compute; reflexivity|].
  split_and!; try (vm_compute; reflexivity).
  vm_compute. discriminate.
Qed.

(** C10. The second pass replaces a pruned feature's geometry only in the
    hull-only collection. The annotated collection is the one the first
    pass built, so for a hull-processed feature whose two-part hull is
    pruned, the [concave_hull_polygon] property still serializes the
    two-part hull while the hull-only collection holds the kept polygon:
    the two geometries differ. *)
Theorem pruning_spares_annotated_collection
    geos cfg features r i feature parts poly1 poly2 kept :
  run geos cfg features = Done r →
  features !! i = Some feature →
  should_process cfg (getProperties feature) = true →
  getGeometry feature = GMultiPolygon parts →
  hull (search geos cfg (getGeometry feature)) = Some (GMultiPolygon [poly1; poly2]) →
  larger_poly geos cfg poly1 poly2 = Some kept →
  (∃ st, first_pass geos cfg features = Done st
         ∧ with_hulls_collection r = output_features_with_hulls st
         ∧ output_features st !! i =
             Some (mkFeature (GMultiPolygon [poly1; poly2])
                     (getProperties feature) (getId feature)))
  ∧ hulls_collection r !! i =
      Some (mkFeature (GPolygon kept) (getProperties feature) (getId feature))
  ∧ with_hulls_collection r !! i =
      Some (mkFeature (getGeometry feature)
              (<["concave_hull_polygon" :=
                   JString (write geos (GMultiPolygon [poly1; poly2]))]>
                 (getProperties feature))
              (getId feature))
  ∧ GPolygon kept ≠ GMultiPolygon [poly1; poly2].
Proof.
  intros Hr Hi Hs Hg Hh Hl.
  destruct (run_slot geos cfg features r i feature Hr Hi) as (a & b & He & Ha & Hb).
  destruct (emitted_hull geos cfg feature parts a b Hs Hg He) as (h & Hh' & -> & ->).
  rewrite Hh in Hh'. injection Hh' as <-.
  pose proof Hr as Hr'. apply run_done in Hr' as (st & Hp & _ & Hw & _).
  destruct (first_pass_slot geos cfg features st i feature Hp Hi)
    as (a' & b' & He' & Ha' & _).
  rewrite He in He'. injection He' as <- _.
  split_and!; [by exists st | | done | done].
  rewrite Ha. unfold resolved_feature, resolution. simpl. by rewrite Hl.
Qed.

Lemma pruning_spares_annotated_collection_witness :
  ∃ r, run geos_echo (small_config ∅)
         [park "Marine Park" (GMultiPolygon [sliver; block])] = Done r
       ∧ getGeometry <$> hulls_collection r !! 0 = Some (GPolygon block)
       ∧ getProperties <$> with_hulls_collection r !! 0 =
           Some (<["concave_hull_polygon" :=
                     JString (sample_write (GMultiPolygon [sliver; block]))]>
                   (getProperties (park "Marine Park" (GMultiPolygon [sliver; block])))).
Proof.
  eexists. split; [vm_compute; reflexivity|].
  match goal with |- context [with_hulls_collection ?r] =>
    destruct (pruning_spares_annotated_collection geos_echo (small_config ∅)
                [park "Marine Park" (GMultiPolygon [sliver; block])]
                r 0 (park "Marine Park" (GMultiPolygon [sliver; block]))
                [sliver; block] sliver block block)
      as (_ & Hh & Hw & _)
  end.
  - vm_compute. reflexivity.
  - reflexivity.
  - vm_compute. reflexivity.
  - reflexivity.
  - vm_compute. reflexivity.
  - vm_compute. reflexivity.
  - rewrite Hh, Hw. split; reflexivity.
Defined.

(** * Further properties of the program *)

(** ** The threshold search, lines 176-225 *)

Lemma escalation_prefix t dt n m :
  n ≤ m → ∃ rest, escalation t dt m = escalation t dt n ++ rest.
Proof.
  revert t m. induction n as [|n IH]; intros t m Hnm; simpl.
  - by eexists.
  - destruct m as [|m]; [lia|]. simpl.
    destruct (IH (float_add t dt) m) as [rest ->]; [lia|]. by eexists.
Qed.

Lemma ascending_head t ts u :
  ascending (t :: ts) = true → u ∈ ts → (value t < value u)%Q.
Proof.
  revert t. induction ts as [|v ts IH]; intros t Ha Hu; [by apply elem_of_nil in Hu|].
  simpl in Ha. apply andb_true_iff in Ha as [Htv Hrest]. apply Qltb_lt in Htv.
  apply elem_of_cons in Hu as [-> | Hu]; [done|].
  apply Qlt_trans with (value v); [done|]. by apply IH.
Qed.

Lemma ascending_lookup ts i j t u :
  ascending ts = true → i < j → ts !! i = Some t → ts !! j = Some u →
  (value t < value u)%Q.
Proof.
  revert i j. induction ts as [|v ts IH]; intros i j Ha Hij Hi Hj; [done|].
  destruct j as [|j]; [lia|]. simpl in Hj.
  destruct i as [|i]; simpl in Hi.
  - injection Hi as ->. apply (ascending_head t ts u Ha).
    by apply list_elem_of_lookup_2 with j.
  - apply (IH i j); [|lia|done|done].
    destruct ts as [|w ts]; [done|]. simpl in Ha.
    by apply andb_true_iff in Ha as [_ Ha].
Qed.

Section SearchCalls.
Variable geos : Geos.
Variable cfg : Config.

Local Abbreviation kernel := (concaveHullByLength geos).

Lemma hull_after_snoc geom before ts t :
  hull_after geos geom before (ts ++ [t]) =
    match kernel geom t true false with
    | Returns h => Some h
    | Throws _ => hull_after geos geom before ts
    end.
Proof. unfold hull_after. by rewrite foldl_app. Qed.

Lemma hull_after_cons geom before ts t :
  hull_after geos geom before (t :: ts) =
    hull_after geos geom
      (match kernel geom t true false with
       | Returns h => Some h
       | Throws _ => before
       end) ts.
Proof. done. Qed.

(** The calls of a search, from any loop state: [calls] are the thresholds
    tried from here on, [hull] is what they leave, and either all of them
    escalate and the budget is used up, or the last one is the first to
    return a single polygon. *)
Lemma search_loop_calls geom remaining st :
  ∃ calls,
    thresholds_tried (search_loop geos cfg geom remaining st)
      = thresholds_tried st ++ calls
    ∧ hull (search_loop geos cfg geom remaining st)
      = hull_after geos geom (hull st) calls
    ∧ ((Forall (escalates_at geos geom) calls
        ∧ length calls = remaining
        ∧ attempts (search_loop geos cfg geom remaining st) = attempts st + remaining)
       ∨ (∃ earlier t h,
            calls = earlier ++ [t]
            ∧ Forall (escalates_at geos geom) earlier
            ∧ kernel geom t true false = Returns h
            ∧ is_single_polygon h = true
            ∧ length earlier < remaining
            ∧ attempts (search_loop geos cfg geom remaining st)
              = attempts st + length earlier)).
Proof.
  revert st. induction remaining as [|rem IH]; intros st.
  - exists []. simpl. rewrite app_nil_r. split_and!; [done | done |].
    left. split_and!; [constructor | done | lia].
  - destruct (kernel geom (current_threshold st) true false) as [h|what] eqn:K.
    + destruct (is_single_polygon h) eqn:Hs.
      * rewrite (search_loop_accepts _ _ _ _ _ _ K Hs). exists [current_threshold st].
        split_and!; [done | unfold hull_after; simpl; by rewrite K |].
        right. exists [], (current_threshold st), h. simpl.
        split_and!; [done | constructor | done | done | lia | lia].
      * rewrite (search_loop_escalates _ _ _ _ _ _ K Hs).
        destruct (IH {| hull := Some h;
                        current_threshold :=
                          float_add (current_threshold st) (CONCAVE_HULL_LENGTH_INCREMENT cfg);
                        attempts := S (attempts st);
                        thresholds_tried :=
                          thresholds_tried st ++ [current_threshold st] |})
          as (calls & Ht & Hh & Hend).
        simpl in Ht, Hh, Hend. exists (current_threshold st :: calls).
        rewrite Ht, Hh, <- app_assoc, hull_after_cons, K. simpl.
        assert (He : escalates_at geos geom (current_threshold st)).
        { intros h' Hk. rewrite K in Hk. by injection Hk as <-. }
        split_and!; [done | done |].
        destruct Hend as [(Hall & Hlen & Ha) | (earlier & t & h' & -> & Hall & Hk & Hs' & Hlen & Ha)].
        -- left. split_and!; [by constructor | simpl; lia | lia].
        -- right. exists (current_threshold st :: earlier), t, h'. simpl.
           split_and!; [done | by constructor | done | done | lia | lia].
    + rewrite (search_loop_throws _ _ _ _ _ _ K).
      destruct (IH {| hull := hull st;
                      current_threshold :=
                        float_add (current_threshold st) (CONCAVE_HULL_LENGTH_INCREMENT cfg);
                      attempts := S (attempts st);
                      thresholds_tried :=
                        thresholds_tried st ++ [current_threshold st] |})
        as (calls & Ht & Hh & Hend).
      simpl in Ht, Hh, Hend. exists (current_threshold st :: calls).
      rewrite Ht, Hh, <- app_assoc, hull_after_cons, K. simpl.
      assert (He : escalates_at geos geom (current_threshold st)).
      { intros h' Hk. rewrite K in Hk. discriminate. }
      split_and!; [done | done |].
      destruct Hend as [(Hall & Hlen & Ha) | (earlier & t & h' & -> & Hall & Hk & Hs' & Hlen & Ha)].
      -- left. split_and!; [by constructor | simpl; lia | lia].
      -- right. exists (current_threshold st :: earlier), t, h'. simpl.
         split_and!; [done | by constructor | done | done | lia | lia].
Qed.

Lemma hull_after_none geom before ts :
  hull_after geos geom before ts = None ↔
  before = None ∧ ∀ t, t ∈ ts → ∃ what, kernel geom t true false = Throws what.
Proof.
  revert before. induction ts as [|t ts IH]; intros before.
  - simpl. split; [intros ->; split; [done|]; by intros t ?%elem_of_nil | by intros [-> _]].
  - rewrite hull_after_cons, IH. split.
    + intros [Hb Hall]. destruct (kernel geom t true false) as [h|what] eqn:K; [done|].
      split; [done|]. intros u [->|Hu]%elem_of_cons; [by eexists | by apply Hall].
    + intros [-> Hall]. destruct (Hall t) as [what ->]; [by left|].
      split; [done|]. intros u Hu. apply Hall. by right.
Qed.

End SearchCalls.

Section SearchResults.
Variable geos : Geos.
Variable cfg : Config.

Local Abbreviation kernel := (concaveHullByLength geos).
Local Abbreviation T0 := (CONCAVE_HULL_LENGTH_THRESHOLD cfg).
Local Abbreviation dT := (CONCAVE_HULL_LENGTH_INCREMENT cfg).

Lemma search_tried_escalation geom :
  ∃ n, n ≤ MAX_ATTEMPTS cfg
       ∧ thresholds_tried (search geos cfg geom) = escalation T0 dT n.
Proof.
  destruct (search_loop_exit geos cfg geom (MAX_ATTEMPTS cfg) (search_init cfg))
    as (n & k & Ht & _ & _ & Hend).
  exists n. split; [|done].
  destruct Hend as [[_ ->] | (Hk & -> & _)]; lia.
Qed.

Lemma hull_after_some geom before ts h :
  hull_after geos geom before ts = Some h →
  before = Some h ∨ ∃ t, t ∈ ts ∧ kernel geom t true false = Returns h.
Proof.
  revert before. induction ts as [|t ts IH]; intros before; [by left|].
  rewrite hull_after_cons. intros [Hb | (u & Hu & Ku)]%IH.
  - destruct (kernel geom t true false) as [h'|what] eqn:K; [|by left].
    right. exists t. split; [by left | congruence].
  - right. exists u. split; [by right | done].
Qed.

(** The search leaves a hull exactly when some kernel call of the full
    escalation returns. *)
Lemma search_hull_some_iff geom :
  is_Some (hull (search geos cfg geom)) ↔
  ∃ t h, t ∈ escalation T0 dT (MAX_ATTEMPTS cfg)
         ∧ kernel geom t true false = Returns h.
Proof.
  destruct (search_loop_calls geos cfg geom (MAX_ATTEMPTS cfg) (search_init cfg))
    as (calls & Ht & Hh & Hend).
  fold (search geos cfg geom) in Ht, Hh, Hend. simpl in Ht, Hh, Hend.
  destruct (search_tried_escalation geom) as (n & Hn & He).
  rewrite Ht in He. split.
  - intros [h Hsome]. rewrite Hh in Hsome.
    apply hull_after_some in Hsome as [? | (t & Hin & K)]; [done|].
    exists t, h. split; [|done].
    destruct (escalation_prefix T0 dT n (MAX_ATTEMPTS cfg) Hn) as [rest ->].
    rewrite <- He. apply elem_of_app. by left.
  - intros (t & h & Hin & K).
    destruct Hend as [(_ & Hlen & _) | (earlier & u & h' & -> & _ & Ku & _)].
    + assert (n = MAX_ATTEMPTS cfg) as ->.
      { rewrite <- Hlen, He. symmetry. apply escalation_length. }
      rewrite <- He in Hin.
      destruct (hull (search geos cfg geom)) as [g|] eqn:Hg; [by eexists|].
      symmetry in Hh. apply hull_after_none in Hh as [_ Hall].
      destruct (Hall t Hin) as [what Hw]. congruence.
    + rewrite Hh, hull_after_snoc, Ku. by eexists.
Qed.

End SearchResults.

(** X1. With the constants compiled into the program, whatever the
    whitelist, the geometry and the kernel, the thresholds handed to the
    kernel during one search are strictly increasing: none of the float
    additions of the increment is absorbed by rounding. *)
Theorem search_thresholds_increase whitelist geos geom i j t u :
  i < j →
  thresholds_tried (search geos (source_constants whitelist) geom) !! i = Some t →
  thresholds_tried (search geos (source_constants whitelist) geom) !! j = Some u →
  (value t < value u)%Q.
Proof.
  intros Hij Hi Hj.
  destruct (search_tried_escalation geos (source_constants whitelist) geom)
    as (n & Hn & He).
  rewrite He in Hi, Hj.
  destruct (escalation_prefix
              (CONCAVE_HULL_LENGTH_THRESHOLD (source_constants whitelist))
              (CONCAVE_HULL_LENGTH_INCREMENT (source_constants whitelist))
              n (MAX_ATTEMPTS (source_constants whitelist)) Hn) as [rest Hfull].
  apply (ascending_lookup
           (escalation (CONCAVE_HULL_LENGTH_THRESHOLD (source_constants whitelist))
                       (CONCAVE_HULL_LENGTH_INCREMENT (source_constants whitelist))
                       (MAX_ATTEMPTS (source_constants whitelist))) i j);
    [vm_compute; reflexivity | done | |].
  - rewrite Hfull. by apply lookup_app_l_Some.
  - rewrite Hfull. by apply lookup_app_l_Some.
Qed.

Lemma search_thresholds_increase_witness :
  ∃ t u,
    thresholds_tried (search geos_echo source_config (GMultiPolygon [block; field])) !! 98
      = Some t
    ∧ thresholds_tried (search geos_echo source_config (GMultiPolygon [block; field])) !! 99
      = Some u
    ∧ (value t < value u)%Q.
Proof.
  eexists _, _. split; [vm_compute; reflexivity|]. split; [vm_compute; reflexivity|].
  apply (search_thresholds_increase ∅ geos_echo (GMultiPolygon [block; field]) 98 99).
  - lia.
  - vm_compute. reflexivity.
  - vm_compute. reflexivity.
Defined.

(** X2. The search ends at the first kernel call that returns a single
    polygon (a [Polygon], or a [MultiPolygon] of exactly one part): every
    earlier call threw or returned something else, and that call's result
    is the hull. If no call does, the search makes [MAX_ATTEMPTS] calls. *)
Theorem search_stops_at_first_single_polygon geos cfg geom :
  (∃ earlier t h,
     thresholds_tried (search geos cfg geom) = earlier ++ [t]
     ∧ Forall (escalates_at geos geom) earlier
     ∧ concaveHullByLength geos geom t true false = Returns h
     ∧ is_single_polygon h = true
     ∧ hull (search geos cfg geom) = Some h
     ∧ attempts (search geos cfg geom) = length earlier
     ∧ length earlier < MAX_ATTEMPTS cfg)
  ∨ (Forall (escalates_at geos geom) (thresholds_tried (search geos cfg geom))
     ∧ length (thresholds_tried (search geos cfg geom)) = MAX_ATTEMPTS cfg
     ∧ attempts (search geos cfg geom) = MAX_ATTEMPTS cfg).
Proof.
  destruct (search_loop_calls geos cfg geom (MAX_ATTEMPTS cfg) (search_init cfg))
    as (calls & Ht & Hh & Hend).
  fold (search geos cfg geom) in Ht, Hh, Hend. simpl in Ht, Hh, Hend.
  rewrite Ht.
  destruct Hend as [(Hall & Hlen & Ha) | (earlier & t & h & -> & Hall & K & Hs & Hlen & Ha)].
  - right. done.
  - left. exists earlier, t, h. split_and!; try done.
    by rewrite Hh, hull_after_snoc, K.
Qed.

(** X3. The hull the search leaves is the result of the last kernel call
    that returned: a call that throws keeps the result of an earlier
    attempt. The hull is null exactly when every call threw. *)
Theorem search_hull_is_last_returned geos cfg geom :
  hull (search geos cfg geom)
    = last_returned geos geom (thresholds_tried (search geos cfg geom))
  ∧ (hull (search geos cfg geom) = None ↔
     ∀ t, t ∈ thresholds_tried (search geos cfg geom) →
          ∃ what, concaveHullByLength geos geom t true false = Throws what).
Proof.
  destruct (search_loop_calls geos cfg geom (MAX_ATTEMPTS cfg) (search_init cfg))
    as (calls & Ht & Hh & _).
  fold (search geos cfg geom) in Ht, Hh. simpl in Ht, Hh.
  rewrite Ht, Hh. split; [done|].
  rewrite hull_after_none. split; [by intros [_ Hall] | by intros Hall].
Qed.

(** A two-part result at the first threshold survives three later
    failures and becomes the hull of the feature. *)
Example stale_hull_survives_failures :
  let s := search (geos_fragile (3 # 4)) (small_config ∅) (GMultiPolygon [block; field]) in
  hull s = Some (GMultiPolygon [block; field]) ∧ attempts_used s = 4.
Proof. vm_compute. split; reflexivity. Qed.

(** ** The run as a whole, lines 134-281 *)

Section RunInvariants.
Variable geos : Geos.
Variable cfg : Config.

Lemma emitted_is_Some_iff feature :
  is_Some (emitted geos cfg feature) ↔
  (should_process cfg (getProperties feature) = true →
   getGeometryTypeId (getGeometry feature) = GEOS_MULTIPOLYGON →
   is_Some (getProperties feature !! "name311")
   ∧ is_Some (hull (search geos cfg (getGeometry feature)))).
Proof.
  unfold emitted.
  destruct (should_process cfg (getProperties feature)); simpl; [|split; [done | by eexists]].
  destruct (getGeometry feature) as [| | | | |parts|] eqn:G; simpl;
    try (split; [done | by eexists]).
  destruct (getProperties feature !! "name311") as [v|].
  - destruct (hull (search geos cfg (GMultiPolygon parts))) as [h|].
    + split; [intros _ _ _; split; by eexists | by eexists].
    + split; [by intros [? ?] | intros H; by destruct (H eq_refl eq_refl) as [_ [? ?]]].
  - split; [by intros [? ?] | intros H; by destruct (H eq_refl eq_refl) as [[? ?] _]].
Qed.

Lemma run_done_iff features :
  (∃ r, run geos cfg features = Done r) ↔
  Forall (λ f, is_Some (emitted geos cfg f)) features.
Proof.
  split; [|apply run_completes].
  intros [r Hr]. apply run_done in Hr as (st & Hp & _).
  apply first_pass_done in Hp as (pairs & HF & _).
  induction HF as [|f p fs ps He HF IH]; constructor; [by eexists | done].
Qed.

(** How the counters move over the first pass. *)
Lemma first_pass_from_counters features : ∀ st st',
  first_pass_from geos cfg st features = Done st' →
  skipped st' = skipped st
    + length (List.filter (λ f, negb (should_process cfg (getProperties f))) features)
  ∧ processed st' + skipped st' = processed st + skipped st + length features.
Proof.
  induction features as [|f fs IH]; intros st st'; simpl.
  - intros [= <-]. lia.
  - destruct (process_feature geos cfg st f) as [st1| |] eqn:Hf; simpl; [|done|done].
    intros Hrest. apply IH in Hrest as [Hs Hp].
    assert (skipped st1 = skipped st
              + (if negb (should_process cfg (getProperties f)) then 1 else 0)
            ∧ processed st1 + skipped st1 = S (processed st + skipped st)) as [Hs1 Hp1].
    { unfold process_feature in Hf.
      destruct (negb (should_process cfg (getProperties f))); simpl in Hf.
      { injection Hf as <-. simpl. lia. }
      destruct (getGeometry f); simpl in Hf; try (injection Hf as <-; simpl; lia).
      destruct (print_name311 (getProperties f)); simpl in Hf; try done.
      destruct (hull (search geos cfg (GMultiPolygon parts))); [|done].
      injection Hf as <-. simpl. lia. }
    rewrite Hs, Hs1. destruct (negb (should_process cfg (getProperties f))); simpl; lia.
Qed.

End RunInvariants.

(** X4. The run completes whenever every whitelist-included multi-polygon
    feature has a string [name311] property and at least one kernel call at
    the (up to [MAX_ATTEMPTS]) float thresholds of its escalation returns:
    no dereference of a null hull or of an end iterator is reached. *)
Theorem run_completes_when geos cfg features :
  (∀ f, f ∈ features →
     should_process cfg (getProperties f) = true →
     getGeometryTypeId (getGeometry f) = GEOS_MULTIPOLYGON →
     (∃ name, getProperties f !! "name311" = Some (JString name))
     ∧ ∃ t h, t ∈ escalation (CONCAVE_HULL_LENGTH_THRESHOLD cfg)
                    (CONCAVE_HULL_LENGTH_INCREMENT cfg) (MAX_ATTEMPTS cfg)
              ∧ concaveHullByLength geos (getGeometry f) t true false = Returns h) →
  ∃ r, run geos cfg features = Done r.
Proof.
  intros Hall. apply run_done_iff, Forall_forall. intros f Hin.
  apply emitted_is_Some_iff. intros Hs Hg.
  destruct (Hall f Hin Hs Hg) as [[name Hn] Hh]. split.
  - rewrite Hn. by eexists.
  - by apply search_hull_some_iff.
Qed.

Lemma run_completes_when_witness :
  ∃ r, run (geos_fragile (3 # 4)) (small_config ∅)
         [park "Marine Park" (GMultiPolygon [block; field])] = Done r.
Proof.
  apply run_completes_when. intros f Hin _ _.
  apply list_elem_of_singleton in Hin as ->. split.
  - eexists. vm_compute. reflexivity.
  - exists (CONCAVE_HULL_LENGTH_THRESHOLD (small_config ∅)),
           (GMultiPolygon [block; field]).
    split; [by left | vm_compute; reflexivity].
Defined.

(** X5. In a run that completes, every input feature is counted once:
    the processed and skipped counters add up to the number of features, and
    the skipped counter is the number of features the whitelist excludes,
    which is none when the whitelist is empty. Features that are not
    multi-polygons count as processed. *)
Theorem counters_add_up geos cfg features r :
  run geos cfg features = Done r →
  processed_count r + skipped_count r = length features
  ∧ skipped_count r
    = length (List.filter (λ f, negb (should_process cfg (getProperties f))) features)
  ∧ (EAPPLY_WHITELIST cfg = ∅ →
     skipped_count r = 0 ∧ processed_count r = length features).
Proof.
  intros Hr. unfold run in Hr.
  destruct (first_pass geos cfg features) as [st| |] eqn:Hp; simpl in Hr; [|done|done].
  injection Hr as <-. simpl.
  apply first_pass_from_counters in Hp as [Hs Hsum]. simpl in Hs, Hsum.
  split_and!; [lia | lia |].
  intros Hw.
  assert (List.filter (λ f, negb (should_process cfg (getProperties f))) features = []) as Hnil.
  { clear -Hw. induction features as [|f fs IH]; [done|]. simpl.
    unfold should_process at 1. by rewrite decide_True. }
  rewrite Hnil in Hs. simpl in Hs. lia.
Qed.

Section CollectionsKeepInput.
Variable geos : Geos.
Variable cfg : Config.

(** What the features emitted for [feature] share with it. *)
Lemma emitted_keeps feature a b :
  emitted geos cfg feature = Some (a, b) →
  getProperties a = getProperties feature
  ∧ getGeometry b = getGeometry feature
  ∧ ∀ k, k ≠ "concave_hull_polygon" →
         getProperties b !! k = getProperties feature !! k.
Proof.
  unfold emitted.
  destruct (negb (should_process cfg (getProperties feature))).
  { rewrite feature_copy_same. by intros [= <- <-]. }
  destruct (getGeometry feature) eqn:G;
    try (rewrite feature_copy_same; by intros [= <- <-]).
  destruct (getProperties feature !! "name311"); [|done].
  destruct (hull (search geos cfg (GMultiPolygon parts))); [|done].
  intros [= <- <-]. simpl. split_and!; [done | done |].
  intros k Hk. by apply lookup_insert_ne.
Qed.

Lemma first_pass_keeps features st :
  first_pass geos cfg features = Done st →
  getProperties <$> output_features st = getProperties <$> features
  ∧ getGeometry <$> output_features_with_hulls st = getGeometry <$> features.
Proof.
  intros Hp. apply first_pass_done in Hp as (pairs & HF & -> & ->).
  induction HF as [|f [a b] fs ps He HF IH]; [done|].
  destruct IH as [IH1 IH2]. rewrite !fmap_cons, IH1, IH2. simpl.
  destruct (emitted_keeps f a b He) as (-> & -> & _). done.
Qed.

End CollectionsKeepInput.

(** X6. In a run that completes, the annotated collection carries every
    input geometry unchanged, in input order, and its property tables agree
    with the input's on every key other than [concave_hull_polygon]. *)
Theorem annotated_collection_keeps_input geos cfg features r :
  run geos cfg features = Done r →
  getGeometry <$> with_hulls_collection r = getGeometry <$> features
  ∧ (∀ i feature annotated k,
       features !! i = Some feature →
       with_hulls_collection r !! i = Some annotated →
       k ≠ "concave_hull_polygon" →
       getProperties annotated !! k = getProperties feature !! k).
Proof.
  intros Hr. pose proof Hr as Hr'. apply run_done in Hr' as (st & Hp & _ & Hw & _).
  split.
  - rewrite Hw. by apply (first_pass_keeps geos cfg features st).
  - intros i feature annotated k Hi Ha Hk.
    destruct (run_slot geos cfg features r i feature Hr Hi) as (a & b & He & _ & Hb).
    rewrite Hb in Ha. injection Ha as <-.
    by apply (emitted_keeps geos cfg feature a b He).
Qed.

Lemma annotated_collection_keeps_input_witness :
  ∃ r, run geos_echo (small_config {["Prospect Park"]})
         [park "Other Park" (GPolygon block);
          park "Prospect Park" (GMultiPolygon [sliver; block])] = Done r
       ∧ getGeometry <$> with_hulls_collection r
         = [GPolygon block; GMultiPolygon [sliver; block]].
Proof.
  eexists. split; [vm_compute; reflexivity|].
  apply (annotated_collection_keeps_input geos_echo (small_config {["Prospect Park"]})
           [park "Other Park" (GPolygon block);
            park "Prospect Park" (GMultiPolygon [sliver; block])]).
  vm_compute. reflexivity.
Defined.

(** X7. In a run that completes, the hull-only collection carries every
    input property table unchanged, in input order: neither the search nor
    the pruning of the second pass touches the properties, and the
    [concave_hull_polygon] property is never added to this collection. *)
Theorem hull_collection_keeps_properties geos cfg features r :
  run geos cfg features = Done r →
  getProperties <$> hulls_collection r = getProperties <$> features.
Proof.
  intros Hr. apply run_done in Hr as (st & Hp & -> & _).
  destruct (first_pass_keeps geos cfg features st Hp) as [<- _].
  rewrite second_pass_collection, <- list_fmap_compose.
  apply list_fmap_ext. intros _ f _. simpl.
  apply (resolved_feature_keeps geos cfg f).
Qed.

Lemma hull_collection_keeps_properties_witness :
  ∃ r, run geos_echo (small_config {["Prospect Park"]})
         [park "Other Park" (GPolygon block);
          park "Prospect Park" (GMultiPolygon [sliver; block])] = Done r
       ∧ getProperties <$> hulls_collection r
         = [getProperties (park "Other Park" (GPolygon block));
            getProperties (park "Prospect Park" (GMultiPolygon [sliver; block]))].
Proof.
  eexists. split; [vm_compute; reflexivity|].
  apply (hull_collection_keeps_properties geos_echo (small_config {["Prospect Park"]})
           [park "Other Park" (GPolygon block);
            park "Prospect Park" (GMultiPolygon [sliver; block])]).
  vm_compute. reflexivity.
Defined.

Lemma counters_add_up_witness :
  ∃ r, run geos_echo (small_config {["Prospect Park"]})
         [park "Other Park" (GPolygon block);
          park "Prospect Park" (GMultiPolygon [sliver; block]);
          park "Prospect Park" (GPolygon field)] = Done r
       ∧ processed_count r + skipped_count r = 3.
Proof.
  eexists. split; [vm_compute; reflexivity|].
  apply (counters_add_up geos_echo (small_config {["Prospect Park"]})
           [park "Other Park" (GPolygon block);
            park "Prospect Park" (GMultiPolygon [sliver; block]);
            park "Prospect Park" (GPolygon field)]).
  vm_compute. reflexivity.
Defined.

(** ** The second pass, lines 289-367 *)

Section SecondPassInvariants.
Variable geos : Geos.
Variable cfg : Config.

Lemma has_many_parts_split feature :
  has_many_parts feature
    = is_pruned geos cfg feature || is_still_multi_part geos cfg feature.
Proof.
  unfold has_many_parts, is_pruned, is_still_multi_part, resolution.
  destruct (getGeometry feature) as [| | | | |parts|]; try done.
  destruct (Nat.ltb 1 (length parts)); [|done].
  destruct parts as [|p1 [|p2 [|p3 ps]]]; try done.
  by destruct (larger_poly geos cfg p1 p2).
Qed.

Lemma pruned_not_still feature :
  is_pruned geos cfg feature = true → is_still_multi_part geos cfg feature = false.
Proof.
  unfold is_pruned, is_still_multi_part. by destruct (resolution geos cfg feature).
Qed.

Lemma resolved_feature_still feature :
  is_still_multi_part geos cfg feature = true →
  resolved_feature geos cfg feature = feature.
Proof.
  unfold is_still_multi_part, resolved_feature.
  by destruct (resolution geos cfg feature).
Qed.

Lemma resolved_feature_not_pruned feature :
  is_pruned geos cfg feature = false →
  resolved_feature geos cfg feature = feature.
Proof.
  unfold is_pruned, resolved_feature. by destruct (resolution geos cfg feature).
Qed.

Lemma resolution_resolved feature :
  resolution geos cfg (resolved_feature geos cfg feature) =
    match resolution geos cfg feature with
    | StillMultiPart => StillMultiPart
    | _ => Untouched
    end.
Proof.
  unfold resolved_feature.
  destruct (resolution geos cfg feature) eqn:R; [done | | done].
  reflexivity.
Qed.

Lemma has_many_parts_resolved feature :
  has_many_parts (resolved_feature geos cfg feature)
    = is_still_multi_part geos cfg feature.
Proof.
  rewrite has_many_parts_split. unfold is_pruned, is_still_multi_part.
  rewrite resolution_resolved. by destruct (resolution geos cfg feature).
Qed.

Lemma is_still_multi_part_resolved feature :
  is_still_multi_part geos cfg (resolved_feature geos cfg feature)
    = is_still_multi_part geos cfg feature.
Proof.
  unfold is_still_multi_part. rewrite resolution_resolved.
  by destruct (resolution geos cfg feature).
Qed.

Lemma is_pruned_resolved feature :
  is_pruned geos cfg (resolved_feature geos cfg feature) = false.
Proof.
  unfold is_pruned. rewrite resolution_resolved.
  by destruct (resolution geos cfg feature).
Qed.

Lemma filter_resolved output :
  List.filter has_many_parts (resolved_feature geos cfg <$> output)
    = List.filter (is_still_multi_part geos cfg) output.
Proof.
  induction output as [|f fs IH]; [done|].
  rewrite fmap_cons. simpl. rewrite has_many_parts_resolved, IH.
  destruct (is_still_multi_part geos cfg f) eqn:Hs; [|done].
  by rewrite resolved_feature_still.
Qed.

Lemma second_pass_lists output :
  multi_polygon_names (second_pass geos cfg output)
    = (λ f, eapply_name (getProperties f))
        <$> List.filter (is_still_multi_part geos cfg) output
  ∧ multi_polygon_features (second_pass geos cfg output)
    = List.filter (is_still_multi_part geos cfg) output
  ∧ tiny_polygons_removed (second_pass geos cfg output)
    = length (List.filter (is_pruned geos cfg) output).
Proof.
  rewrite second_pass_report. simpl. rewrite firstn_all. split_and!; [done | | done].
  rewrite <- (list_fmap_id (List.filter (is_still_multi_part geos cfg) output)) at 2.
  apply list_fmap_ext. intros _ f _. apply feature_copy_same.
Qed.

End SecondPassInvariants.

(** X8. After the second pass, the features written to the issue files
    are exactly the features of the hull-only collection that are still
    multi-polygons of more than one part, in collection order, and the names
    reported are theirs. So no name is reported exactly when no such feature
    is left. *)
Theorem issues_are_what_stays_multi_part geos cfg output :
  multi_polygon_features (second_pass geos cfg output)
    = List.filter has_many_parts (hull_features (second_pass geos cfg output))
  ∧ multi_polygon_names (second_pass geos cfg output)
    = (λ f, eapply_name (getProperties f))
        <$> List.filter has_many_parts (hull_features (second_pass geos cfg output))
  ∧ (multi_polygon_names (second_pass geos cfg output) = [] ↔
     Forall (λ f, has_many_parts f = false)
            (hull_features (second_pass geos cfg output))).
Proof.
  destruct (second_pass_lists geos cfg output) as (Hn & Hf & _).
  rewrite second_pass_collection, filter_resolved, Hn, Hf.
  split_and!; [done | done |].
  rewrite <- (filter_resolved geos cfg output).
  generalize (resolved_feature geos cfg <$> output). intros l.
  induction l as [|f fs IH]; simpl.
  - split; [constructor | done].
  - destruct (has_many_parts f) eqn:Hm; simpl.
    + split; [done | intros [? _]%Forall_cons; congruence].
    + rewrite IH. split; [by constructor | by intros [_ ?]%Forall_cons].
Qed.

(** X9. Every multi-polygon of more than one part that enters the second
    pass is either pruned or reported, never both and never neither: the
    tiny-polygon counter and the number of reported names add up to the
    number of such features, and there is one issue feature per name. *)
Theorem second_pass_counts geos cfg output :
  tiny_polygons_removed (second_pass geos cfg output)
    + length (multi_polygon_names (second_pass geos cfg output))
  = length (List.filter has_many_parts output)
  ∧ length (multi_polygon_features (second_pass geos cfg output))
    = length (multi_polygon_names (second_pass geos cfg output)).
Proof.
  destruct (second_pass_lists geos cfg output) as (-> & -> & ->).
  rewrite length_fmap. split; [|done].
  induction output as [|f fs IH]; [done|]. simpl.
  rewrite (has_many_parts_split geos cfg f).
  destruct (is_pruned geos cfg f) eqn:Hp; simpl.
  - rewrite (pruned_not_still geos cfg f Hp). simpl. lia.
  - destruct (is_still_multi_part geos cfg f); simpl; lia.
Qed.

(** X10. The second pass is idempotent: run again on its own result it
    changes no slot, prunes nothing and reports the same features. *)
Theorem second_pass_idempotent geos cfg output :
  let once := second_pass geos cfg output in
  let twice := second_pass geos cfg (hull_features once) in
  hull_features twice = hull_features once
  ∧ tiny_polygons_removed twice = 0
  ∧ multi_polygon_names twice = multi_polygon_names once
  ∧ multi_polygon_features twice = multi_polygon_features once.
Proof.
  intros once twice. subst once twice.
  destruct (second_pass_lists geos cfg (hull_features (second_pass geos cfg output)))
    as (-> & -> & ->).
  destruct (second_pass_lists geos cfg output) as (-> & -> & _).
  rewrite !second_pass_collection.
  assert (Hstill : List.filter (is_still_multi_part geos cfg)
                     (resolved_feature geos cfg <$> output)
                   = List.filter (is_still_multi_part geos cfg) output).
  { induction output as [|f fs IH]; [done|]. rewrite fmap_cons. simpl.
    rewrite is_still_multi_part_resolved, IH.
    destruct (is_still_multi_part geos cfg f) eqn:Hs; [|done].
    by rewrite resolved_feature_still. }
  rewrite Hstill. split_and!; [| | done | done].
  - rewrite <- list_fmap_compose. apply list_fmap_ext. intros _ f _. simpl.
    apply resolved_feature_not_pruned, is_pruned_resolved.
  - clear Hstill. induction output as [|f fs IH]; [done|]. rewrite fmap_cons. simpl.
    by rewrite is_pruned_resolved.
Qed.

(** X11. The second pass changes a slot only by pruning: if the feature
    in a slot differs after the pass, its geometry was a multi-polygon of
    exactly two parts, the new geometry is one of the two parts, and the
    part dropped is strictly smaller than the part kept and strictly below
    the area threshold. Properties and identifier stay. *)
Theorem pruning_is_sound geos cfg output i before after :
  output !! i = Some before →
  hull_features (second_pass geos cfg output) !! i = Some after →
  after ≠ before →
  ∃ kept dropped,
    (getGeometry before = GMultiPolygon [dropped; kept]
     ∨ getGeometry before = GMultiPolygon [kept; dropped])
    ∧ after = mkFeature (GPolygon kept) (getProperties before) (getId before)
    ∧ (getArea geos dropped < getArea geos kept)%Q
    ∧ (getArea geos dropped < TINY_POLYGON_AREA_THRESHOLD cfg)%Q.
Proof.
  intros Hi Ha Hne. rewrite (second_pass_slot geos cfg output i before Hi) in Ha.
  injection Ha as <-. unfold resolved_feature, resolution in *.
  destruct (getGeometry before) as [| | | | |parts|] eqn:G; try done.
  destruct (Nat.ltb 1 (length parts)); [|done].
  destruct parts as [|p1 [|p2 [|p3 ps]]]; try done.
  unfold larger_poly in *.
  destruct (Qltb (getArea geos p1) (getArea geos p2)
            && Qltb (getArea geos p1) (TINY_POLYGON_AREA_THRESHOLD cfg)) eqn:C1.
  - apply andb_true_iff in C1 as [H1 H2]. apply Qltb_lt in H1, H2.
    exists p2, p1. split_and!; [by left | done | done | done].
  - destruct (Qltb (getArea geos p2) (getArea geos p1)
              && Qltb (getArea geos p2) (TINY_POLYGON_AREA_THRESHOLD cfg)) eqn:C2; [|done].
    apply andb_true_iff in C2 as [H1 H2]. apply Qltb_lt in H1, H2.
    exists p1, p2. split_and!; [by right | done | done | done].
Qed.

Lemma pruning_is_sound_witness :
  ∃ kept dropped,
    (getGeometry (park "Marine Park" (GMultiPolygon [block; sliver]))
       = GMultiPolygon [dropped; kept]
     ∨ getGeometry (park "Marine Park" (GMultiPolygon [block; sliver]))
       = GMultiPolygon [kept; dropped])
    ∧ (getArea geos_echo dropped < getArea geos_echo kept)%Q.
Proof.
  destruct (pruning_is_sound geos_echo (small_config ∅)
              [park "Marine Park" (GMultiPolygon [block; sliver])] 0
              (park "Marine Park" (GMultiPolygon [block; sliver]))
              (mkFeature (GPolygon block)
                 (getProperties (park "Marine Park" (GMultiPolygon [block; sliver])))
                 "Marine Park"))
    as (kept & dropped & Hg & _ & Hlt & _).
  - reflexivity.
  - vm_compute. reflexivity.
  - discriminate.
  - exists kept, dropped. split; [exact Hg | exact Hlt].
Defined.

(** ** Files and [main], lines 72-131 and 369-431 *)

Lemma io_bind_done {A B} (m : IO A) (k : A → IO B) events a events' :
  m events = (Done a, events') → (m ≫= k) events = k a events'.
Proof. intros H. unfold mbind, IO_bind. by rewrite H. Qed.

Lemma io_bind_throw {A B} (m : IO A) (k : A → IO B) events what events' :
  m events = (Throw what, events') → (m ≫= k) events = (Throw what, events').
Proof. intros H. unfold mbind, IO_bind. by rewrite H. Qed.

Lemma writeFile_opened fs filename content events :
  open_for_writing fs filename = true →
  writeFile fs filename content events
    = (Done (), events ++ [FileWritten filename content]).
Proof. intros H. unfold writeFile. by rewrite H. Qed.

Lemma writeFile_refused fs filename content events :
  open_for_writing fs filename = false →
  writeFile fs filename content events
    = (Throw ("Could not write to file: " +:+ filename), events).
Proof. intros H. unfold writeFile. by rewrite H. Qed.

Section MainFacts.
Variable fs : FileSystem.
Variable io : GeoJSONIO.
Variable geos : Geos.
Variable cfg : Config.

Lemma write_issue_files_all issues : ∀ i events,
  (∀ k, k < length issues → open_for_writing fs (issue_filename (i + k)) = true) →
  write_issue_files fs io i issues events
    = (Done (), events ++ issue_events io i issues).
Proof.
  induction issues as [|f rest IH]; intros i events Hw; simpl.
  - by rewrite app_nil_r.
  - rewrite (io_bind_done _ _ _ () (events ++ [FileWritten (issue_filename i) (writeFeatures io [f])])).
    + rewrite IH, <- app_assoc; [done|].
      intros k Hk. replace (S i + k) with (i + S k) by lia. apply Hw. simpl. lia.
    + apply writeFile_opened. rewrite <- (Nat.add_0_r i). apply Hw. simpl. lia.
Qed.

Lemma write_issue_files_refused issues : ∀ i events k,
  k < length issues →
  (∀ j, j < k → open_for_writing fs (issue_filename (i + j)) = true) →
  open_for_writing fs (issue_filename (i + k)) = false →
  write_issue_files fs io i issues events
    = (Throw ("Could not write to file: " +:+ issue_filename (i + k)),
       events ++ issue_events io i (take k issues)).
Proof.
  induction issues as [|f rest IH]; intros i events k Hk Hbefore Hno; simpl in *; [lia|].
  destruct k as [|k].
  - rewrite Nat.add_0_r in Hno |- *. simpl. rewrite app_nil_r.
    apply io_bind_throw. by apply writeFile_refused.
  - rewrite (io_bind_done _ _ _ () (events ++ [FileWritten (issue_filename i) (writeFeatures io [f])])).
    + rewrite (IH (S i) _ k); [| lia | |].
      * simpl. rewrite <- app_assoc. simpl.
        by replace (S (i + k)) with (i + S k) by lia.
      * intros j Hj. replace (S i + j) with (i + S j) by lia. apply Hbefore. lia.
      * by replace (S i + k) with (i + S k) by lia.
    + apply writeFile_opened. rewrite <- (Nat.add_0_r i). apply Hbefore. lia.
Qed.

(** [main] once the input is read and parsed and the run has completed. *)
Lemma main_after_run content features r :
  open_for_reading fs SOURCE_DATA_FILE = Some content →
  readFeatures io content = Parsed features →
  run geos cfg features = Done r →
  main fs io geos cfg =
    let '(o, events) :=
      (_ ← report_issues fs io r;
       _ ← writeFile fs OUTPUT_PATH_HULLS (writeFeatures io (hulls_collection r));
       writeFile fs OUTPUT_PATH_WITH_HULLS
         (writeFeatures io (with_hulls_collection r))) [] in
    (main_exit o, events).
Proof.
  intros Ho Hp Hr. unfold main, main_body, readFile. rewrite Ho.
  unfold mbind at 1, IO_bind at 1. unfold mret, IO_ret.
  rewrite Hp. unfold mbind at 1, IO_bind at 1. unfold lift at 1.
  rewrite Hr. unfold mbind at 1, IO_bind at 1. unfold lift at 1. done.
Qed.

End MainFacts.

Lemma string_app_to_list s t :
  Stdlib.Strings.String.list_ascii_of_string (s +:+ t) = Stdlib.Strings.String.list_ascii_of_string s ++ Stdlib.Strings.String.list_ascii_of_string t.
Proof. induction s as [|a s IH]; simpl; [done | by rewrite IH]. Qed.

Lemma string_app_inv_tail s1 s2 t : s1 +:+ t = s2 +:+ t → s1 = s2.
Proof.
  intros H. apply (f_equal Stdlib.Strings.String.list_ascii_of_string) in H.
  rewrite !string_app_to_list in H. apply app_inv_tail in H.
  apply (f_equal Stdlib.Strings.String.string_of_list_ascii) in H.
  by rewrite !Stdlib.Strings.String.string_of_list_ascii_of_string in H.
Qed.

Section ReportFacts.
Variable fs : FileSystem.
Variable io : GeoJSONIO.

(** The issue directory is usable: it exists, or ([created]) it does not
    and is created. What [report_issues] then does when every issue file
    can be written. *)
Lemma report_issues_written r (created : bool) events :
  unresolved_names r ≠ [] →
  directory_exists fs issue_dir = (if created then No else Yes) →
  (created = true → create_directory fs issue_dir = Yes) →
  (∀ k, k < length (issue_features r) →
        open_for_writing fs (issue_filename k) = true) →
  report_issues fs io r events
    = (Done (), events ++ (if created then [DirectoryCreated issue_dir] else [])
                       ++ issue_events io 0 (issue_features r)).
Proof.
  intros Hn Hd Hc Hw. unfold report_issues.
  destruct (unresolved_names r); [done|].
  unfold createDirectoryIfNotExists. rewrite Hd. destruct created.
  - rewrite Hc by done. unfold mbind, IO_bind, ask, mret, IO_ret, record. simpl.
    rewrite write_issue_files_all by done. by rewrite <- app_assoc.
  - unfold mbind, IO_bind, ask, mret, IO_ret. simpl.
    by rewrite write_issue_files_all.
Qed.

Lemma report_issues_refused r (created : bool) events k :
  unresolved_names r ≠ [] →
  directory_exists fs issue_dir = (if created then No else Yes) →
  (created = true → create_directory fs issue_dir = Yes) →
  k < length (issue_features r) →
  (∀ j, j < k → open_for_writing fs (issue_filename j) = true) →
  open_for_writing fs (issue_filename k) = false →
  report_issues fs io r events
    = (Throw ("Could not write to file: " +:+ issue_filename k),
       events ++ (if created then [DirectoryCreated issue_dir] else [])
              ++ issue_events io 0 (take k (issue_features r))).
Proof.
  intros Hn Hd Hc Hk Hw Hno. unfold report_issues.
  destruct (unresolved_names r); [done|].
  unfold createDirectoryIfNotExists. rewrite Hd. destruct created.
  - rewrite Hc by done. unfold mbind, IO_bind, ask, mret, IO_ret, record. simpl.
    rewrite (write_issue_files_refused fs io _ 0 _ k) by done. by rewrite <- app_assoc.
  - unfold mbind, IO_bind, ask, mret, IO_ret. simpl.
    by rewrite (write_issue_files_refused fs io _ 0 _ k).
Qed.

End ReportFacts.

(** [main] when the source file cannot be opened. *)
Lemma main_unreadable fs io geos cfg :
  open_for_reading fs SOURCE_DATA_FILE = None →
  main fs io geos cfg
    = (Exit1 "Could not open file: ./output_data/0b_parks_filtered.geojson", []).
Proof. intros Ho. unfold main, main_body, readFile. by rewrite Ho. Qed.

(** [main] when the reader throws. *)
Lemma main_unparsed fs io geos cfg content what :
  open_for_reading fs SOURCE_DATA_FILE = Some content →
  readFeatures io content = ParseFails what →
  main fs io geos cfg = (Exit1 what, []).
Proof.
  intros Ho Hp. unfold main, main_body, readFile. rewrite Ho.
  unfold mbind at 1, IO_bind at 1. unfold mret, IO_ret. by rewrite Hp.
Qed.

(** X12. If the source file cannot be opened, [main] exits with status 1
    and the message of [readFile], having written nothing; if it can be
    opened but the reader throws, [main] exits with status 1 and the
    reader's message, having written nothing. *)
Theorem main_input_failure fs io geos cfg what :
  (open_for_reading fs SOURCE_DATA_FILE = None
   ∧ what = "Could not open file: ./output_data/0b_parks_filtered.geojson")
  ∨ (∃ content, open_for_reading fs SOURCE_DATA_FILE = Some content
                ∧ readFeatures io content = ParseFails what) →
  main fs io geos cfg = (Exit1 what, []).
Proof.
  intros [[Ho ->] | (content & Ho & Hp)].
  - by apply main_unreadable.
  - by apply main_unparsed with content.
Qed.

Lemma main_input_failure_witness :
  main (mkFileSystem (λ _, None) (λ _, true) (λ _, Yes) (λ _, Yes))
       (sample_io []) geos_echo source_config
  = (Exit1 "Could not open file: ./output_data/0b_parks_filtered.geojson", []).
Proof.
  apply main_input_failure. left. split; reflexivity.
Defined.

(** X13. When the run leaves no unresolved feature and both output files
    can be opened, [main] exits with status 0 having written exactly the
    hull-only collection and then the annotated collection; the issue
    directory is neither looked up nor created. *)
Theorem main_all_resolved fs io geos cfg content features r :
  open_for_reading fs SOURCE_DATA_FILE = Some content →
  readFeatures io content = Parsed features →
  run geos cfg features = Done r →
  unresolved_names r = [] →
  open_for_writing fs OUTPUT_PATH_HULLS = true →
  open_for_writing fs OUTPUT_PATH_WITH_HULLS = true →
  main fs io geos cfg =
    (Exit0 (),
     [FileWritten OUTPUT_PATH_HULLS (writeFeatures io (hulls_collection r));
      FileWritten OUTPUT_PATH_WITH_HULLS (writeFeatures io (with_hulls_collection r))]).
Proof.
  intros Ho Hp Hr Hn H1 H2. rewrite (main_after_run fs io geos cfg content features r Ho Hp Hr).
  unfold report_issues. rewrite Hn.
  unfold mbind, IO_bind, mret, IO_ret, writeFile, record. by rewrite H1, H2.
Qed.

Lemma main_all_resolved_witness :
  fst (main (fs_with "{}" (Raises "no access") (Raises "no access") [])
            (sample_io [park "Marine Park" (GMultiPolygon [sliver; block])])
            geos_echo (small_config ∅))
  = Exit0 ().
Proof.
  erewrite (main_all_resolved _ _ _ _ "{}"
              [park "Marine Park" (GMultiPolygon [sliver; block])]).
  - reflexivity.
  - reflexivity.
  - reflexivity.
  - vm_compute. reflexivity.
  - vm_compute. reflexivity.
  - reflexivity.
  - reflexivity.
Defined.

(** X14. When unresolved features remain, the issue directory is usable
    and every file can be opened, [main] exits with status 0 having written
    one file per unresolved feature, named [issue_1], [issue_2], ... in the
    order of the report, and after them the two output collections. *)
Theorem main_writes_issue_files_first fs io geos cfg content features r (created : bool) :
  open_for_reading fs SOURCE_DATA_FILE = Some content →
  readFeatures io content = Parsed features →
  run geos cfg features = Done r →
  unresolved_names r ≠ [] →
  directory_exists fs issue_dir = (if created then No else Yes) →
  (created = true → create_directory fs issue_dir = Yes) →
  (∀ k, k < length (issue_features r) →
        open_for_writing fs (issue_filename k) = true) →
  open_for_writing fs OUTPUT_PATH_HULLS = true →
  open_for_writing fs OUTPUT_PATH_WITH_HULLS = true →
  main fs io geos cfg =
    (Exit0 (),
     (if created then [DirectoryCreated issue_dir] else [])
     ++ issue_events io 0 (issue_features r)
     ++ [FileWritten OUTPUT_PATH_HULLS (writeFeatures io (hulls_collection r));
         FileWritten OUTPUT_PATH_WITH_HULLS
           (writeFeatures io (with_hulls_collection r))]).
Proof.
  intros Ho Hp Hr Hn Hd Hc Hw H1 H2.
  rewrite (main_after_run fs io geos cfg content features r Ho Hp Hr).
  rewrite (io_bind_done _ _ _ () _ (report_issues_written fs io r created [] Hn Hd Hc Hw)).
  unfold mbind, IO_bind, writeFile, record. rewrite H1, H2. simpl.
  by rewrite <- !app_assoc.
Qed.

Lemma main_writes_issue_files_first_witness :
  main (fs_fresh "{}")
       (sample_io [park "Marine Park" (GMultiPolygon [sliver; block; field]);
                   park "Prospect Park" (GMultiPolygon [block; field])])
       geos_echo (small_config ∅)
  = (Exit0 (),
     [DirectoryCreated "temp/issue_geojson";
      FileWritten "temp/issue_geojson/issue_1.geojson" "Marine Park;";
      FileWritten "temp/issue_geojson/issue_2.geojson" "Prospect Park;";
      FileWritten OUTPUT_PATH_HULLS "Marine Park;Prospect Park;";
      FileWritten OUTPUT_PATH_WITH_HULLS "Marine Park;Prospect Park;"]).
Proof.
  erewrite (main_writes_issue_files_first _ _ _ _ "{}"
              [park "Marine Park" (GMultiPolygon [sliver; block; field]);
               park "Prospect Park" (GMultiPolygon [block; field])] _ true);
    cycle 1.
  - reflexivity.
  - reflexivity.
  - vm_compute. reflexivity.
  - vm_compute. discriminate.
  - reflexivity.
  - reflexivity.
  - reflexivity.
  - reflexivity.
  - reflexivity.
  - vm_compute. reflexivity.
Defined.

(** X15. When unresolved features remain and the issue directory is
    absent and cannot be created, no issue file is attempted, and what
    follows depends on how the failure is reported. With [stat]/[mkdir] the
    failure is the answer "no": only a warning results, both output
    collections are written and [main] exits with status 0. With
    [std::filesystem], [create_directory] throws: [main] exits with status 1
    with that message and nothing at all is written. *)
Theorem main_without_issue_directory fs io geos cfg content features r answer :
  open_for_reading fs SOURCE_DATA_FILE = Some content →
  readFeatures io content = Parsed features →
  run geos cfg features = Done r →
  unresolved_names r ≠ [] →
  directory_exists fs issue_dir = No →
  create_directory fs issue_dir = answer →
  answer ≠ Yes →
  open_for_writing fs OUTPUT_PATH_HULLS = true →
  open_for_writing fs OUTPUT_PATH_WITH_HULLS = true →
  main fs io geos cfg =
    match answer with
    | Raises what => (Exit1 what, [])
    | _ =>
      (Exit0 (),
       [FileWritten OUTPUT_PATH_HULLS (writeFeatures io (hulls_collection r));
        FileWritten OUTPUT_PATH_WITH_HULLS
          (writeFeatures io (with_hulls_collection r))])
    end.
Proof.
  intros Ho Hp Hr Hn Hd Hc Hne H1 H2.
  rewrite (main_after_run fs io geos cfg content features r Ho Hp Hr).
  unfold report_issues. destruct (unresolved_names r); [done|].
  unfold createDirectoryIfNotExists. rewrite Hd, Hc.
  destruct answer as [| |what]; [done | |].
  - unfold mbind, IO_bind, ask, mret, IO_ret, writeFile, record. simpl.
    by rewrite H1, H2.
  - reflexivity.
Qed.

Lemma main_without_issue_directory_witness :
  main (fs_with "{}" No No [])
       (sample_io [park "Marine Park" (GMultiPolygon [sliver; block; field])])
       geos_echo (small_config ∅)
  = (Exit0 (),
     [FileWritten OUTPUT_PATH_HULLS "Marine Park;";
      FileWritten OUTPUT_PATH_WITH_HULLS "Marine Park;"])
  ∧ main (fs_with "{}" No (Raises "filesystem error: cannot create directory") [])
         (sample_io [park "Marine Park" (GMultiPolygon [sliver; block; field])])
         geos_echo (small_config ∅)
    = (Exit1 "filesystem error: cannot create directory", []).
Proof.
  split.
  - erewrite (main_without_issue_directory _ _ _ _ "{}"
                [park "Marine Park" (GMultiPolygon [sliver; block; field])] _ No);
      cycle 1.
    + reflexivity.
    + reflexivity.
    + vm_compute. reflexivity.
    + vm_compute. discriminate.
    + reflexivity.
    + reflexivity.
    + discriminate.
    + reflexivity.
    + reflexivity.
    + vm_compute. reflexivity.
  - erewrite (main_without_issue_directory _ _ _ _ "{}"
                [park "Marine Park" (GMultiPolygon [sliver; block; field])] _
                (Raises "filesystem error: cannot create directory"));
      cycle 1.
    + reflexivity.
    + reflexivity.
    + vm_compute. reflexivity.
    + vm_compute. discriminate.
    + reflexivity.
    + reflexivity.
    + discriminate.
    + reflexivity.
    + reflexivity.
    + reflexivity.
Defined.

(** X16. When an issue file cannot be opened, [main] exits with status 1
    and the message of [writeFile] for that file: the earlier issue files
    are on disk, and neither output collection is written. *)
Theorem main_issue_file_refused fs io geos cfg content features r (created : bool) k :
  open_for_reading fs SOURCE_DATA_FILE = Some content →
  readFeatures io content = Parsed features →
  run geos cfg features = Done r →
  unresolved_names r ≠ [] →
  directory_exists fs issue_dir = (if created then No else Yes) →
  (created = true → create_directory fs issue_dir = Yes) →
  k < length (issue_features r) →
  (∀ j, j < k → open_for_writing fs (issue_filename j) = true) →
  open_for_writing fs (issue_filename k) = false →
  main fs io geos cfg =
    (Exit1 ("Could not write to file: " +:+ issue_filename k),
     (if created then [DirectoryCreated issue_dir] else [])
     ++ issue_events io 0 (take k (issue_features r))).
Proof.
  intros Ho Hp Hr Hn Hd Hc Hk Hw Hno.
  rewrite (main_after_run fs io geos cfg content features r Ho Hp Hr).
  by rewrite (io_bind_throw _ _ _ _ _
                (report_issues_refused fs io r created [] k Hn Hd Hc Hk Hw Hno)).
Qed.

Lemma main_issue_file_refused_witness :
  main (fs_with "{}" Yes Yes ["temp/issue_geojson/issue_2.geojson"])
       (sample_io [park "Marine Park" (GMultiPolygon [sliver; block; field]);
                   park "Prospect Park" (GMultiPolygon [block; field])])
       geos_echo (small_config ∅)
  = (Exit1 "Could not write to file: temp/issue_geojson/issue_2.geojson",
     [FileWritten "temp/issue_geojson/issue_1.geojson" "Marine Park;"]).
Proof.
  erewrite (main_issue_file_refused _ _ _ _ "{}"
              [park "Marine Park" (GMultiPolygon [sliver; block; field]);
               park "Prospect Park" (GMultiPolygon [block; field])] _ false 1);
    cycle 1.
  - reflexivity.
  - reflexivity.
  - vm_compute. reflexivity.
  - vm_compute. discriminate.
  - reflexivity.
  - discriminate.
  - vm_compute. lia.
  - intros j Hj. assert (j = 0) as -> by lia. vm_compute. reflexivity.
  - vm_compute. reflexivity.
  - vm_compute. reflexivity.
Defined.

Section ReportEvents.
Variable fs : FileSystem.
Variable io : GeoJSONIO.

Lemma write_issue_files_done issues : ∀ i events events',
  write_issue_files fs io i issues events = (Done (), events') →
  events' = events ++ issue_events io i issues.
Proof.
  induction issues as [|f rest IH]; intros i events events'; simpl.
  - intros [= <-]. by rewrite app_nil_r.
  - unfold mbind, IO_bind, writeFile.
    destruct (open_for_writing fs (issue_filename i)); simpl; [|done].
    intros H. apply IH in H. by rewrite H, <- app_assoc.
Qed.

(** What a report that completes has left on disk: nothing, or the issue
    directory if it had to be created and then every issue file. *)
Lemma report_issues_done r events events' :
  report_issues fs io r events = (Done (), events') →
  events' = events
  ∨ ∃ created : bool,
      events' = events ++ (if created then [DirectoryCreated issue_dir] else [])
                       ++ issue_events io 0 (issue_features r).
Proof.
  unfold report_issues. destruct (unresolved_names r); [intros [= <-]; by left|].
  unfold createDirectoryIfNotExists.
  destruct (directory_exists fs issue_dir); simpl.
  - unfold mbind, IO_bind, ask, mret, IO_ret. simpl.
    intros H%write_issue_files_done. right. exists false. done.
  - destruct (create_directory fs issue_dir); simpl.
    + unfold mbind, IO_bind, ask, mret, IO_ret, record. simpl.
      intros H%write_issue_files_done. right. exists true. by rewrite H, <- app_assoc.
    + unfold mbind, IO_bind, ask, mret, IO_ret. simpl. intros [= <-]. by left.
    + unfold mbind, IO_bind, ask, lift. simpl. done.
  - unfold mbind, IO_bind, ask, lift. simpl. done.
Qed.

End ReportEvents.

(** X17. Exit status 0 guarantees the outputs: whenever [main] exits with
    status 0 the input was read and parsed, the run completed, and the last
    two things written are the hull-only collection and then the annotated
    collection of that run; anything written before them is the issue
    directory and the issue files of that run. *)
Theorem main_exit0_outputs_written fs io geos cfg events :
  main fs io geos cfg = (Exit0 (), events) →
  ∃ content features r before,
    open_for_reading fs SOURCE_DATA_FILE = Some content
    ∧ readFeatures io content = Parsed features
    ∧ run geos cfg features = Done r
    ∧ events = before
        ++ [FileWritten OUTPUT_PATH_HULLS (writeFeatures io (hulls_collection r));
            FileWritten OUTPUT_PATH_WITH_HULLS
              (writeFeatures io (with_hulls_collection r))]
    ∧ (before = []
       ∨ ∃ created : bool,
           before = (if created then [DirectoryCreated issue_dir] else [])
                    ++ issue_events io 0 (issue_features r)).
Proof.
  intros Hm.
  destruct (open_for_reading fs SOURCE_DATA_FILE) as [content|] eqn:Ho.
  2:{ by rewrite (main_unreadable fs io geos cfg Ho) in Hm. }
  destruct (readFeatures io content) as [features|what] eqn:Hp.
  2:{ by rewrite (main_unparsed fs io geos cfg content what Ho Hp) in Hm. }
  destruct (run geos cfg features) as [r|what|fault] eqn:Hr.
  - rewrite (main_after_run fs io geos cfg content features r Ho Hp Hr) in Hm.
    unfold mbind at 1, IO_bind at 1 in Hm.
    destruct (report_issues fs io r []) as [[[]|what|fault] before] eqn:Hrep; [|done|done].
    unfold mbind, IO_bind, writeFile, record in Hm.
    destruct (open_for_writing fs OUTPUT_PATH_HULLS); [|done].
    destruct (open_for_writing fs OUTPUT_PATH_WITH_HULLS); [|done].
    simpl in Hm. injection Hm as <-.
    exists content, features, r, before. split_and!; try done.
    + by rewrite <- app_assoc.
    + apply report_issues_done in Hrep as [-> | [created ->]]; [by left | right].
      by exists created.
  - by destruct (run_never_throws geos cfg features what).
  - unfold main, main_body, readFile in Hm. rewrite Ho in Hm.
    unfold mbind at 1, IO_bind at 1 in Hm. unfold mret, IO_ret in Hm.
    rewrite Hp in Hm. unfold mbind at 1, IO_bind at 1 in Hm. unfold lift at 1 in Hm.
    rewrite Hr in Hm. unfold mbind at 1, IO_bind at 1 in Hm. unfold lift at 1 in Hm.
    done.
Qed.

Lemma main_exit0_outputs_written_witness :
  ∃ content features r before,
    open_for_reading (fs_fresh "{}") SOURCE_DATA_FILE = Some content
    ∧ readFeatures (sample_io [park "Marine Park" (GPolygon block)]) content
      = Parsed features
    ∧ run geos_echo (small_config ∅) features = Done r
    ∧ [FileWritten OUTPUT_PATH_HULLS "Marine Park;";
       FileWritten OUTPUT_PATH_WITH_HULLS "Marine Park;"]
      = before
        ++ [FileWritten OUTPUT_PATH_HULLS
              (writeFeatures (sample_io [park "Marine Park" (GPolygon block)])
                 (hulls_collection r));
            FileWritten OUTPUT_PATH_WITH_HULLS
              (writeFeatures (sample_io [park "Marine Park" (GPolygon block)])
                 (with_hulls_collection r))].
Proof.
  destruct (main_exit0_outputs_written (fs_fresh "{}")
              (sample_io [park "Marine Park" (GPolygon block)])
              geos_echo (small_config ∅)
              [FileWritten OUTPUT_PATH_HULLS "Marine Park;";
               FileWritten OUTPUT_PATH_WITH_HULLS "Marine Park;"])
    as (content & features & r & before & Ho & Hp & Hr & He & _).
  - vm_compute. reflexivity.
  - exists content, features, r, before. split_and!; assumption.
Defined.

(** X18. The two output files are written in order and without a
    rollback: if the hull-only file cannot be opened, neither file is
    written; if it can and the annotated file cannot, the hull-only file is
    already on disk. Either way [main] exits with status 1 and the message
    of [writeFile] for the file that failed. *)
Theorem main_output_refused fs io geos cfg content features r before (hulls_opened : bool) :
  open_for_reading fs SOURCE_DATA_FILE = Some content →
  readFeatures io content = Parsed features →
  run geos cfg features = Done r →
  report_issues fs io r [] = (Done (), before) →
  open_for_writing fs OUTPUT_PATH_HULLS = hulls_opened →
  (hulls_opened = true → open_for_writing fs OUTPUT_PATH_WITH_HULLS = false) →
  main fs io geos cfg =
    (Exit1 ("Could not write to file: "
            +:+ (if hulls_opened then OUTPUT_PATH_WITH_HULLS else OUTPUT_PATH_HULLS)),
     before
     ++ (if hulls_opened
         then [FileWritten OUTPUT_PATH_HULLS (writeFeatures io (hulls_collection r))]
         else [])).
Proof.
  intros Ho Hp Hr Hrep H1 H2.
  rewrite (main_after_run fs io geos cfg content features r Ho Hp Hr).
  rewrite (io_bind_done _ _ _ () _ Hrep).
  unfold mbind, IO_bind, writeFile, record, lift. rewrite H1.
  destruct hulls_opened.
  - by rewrite H2.
  - by rewrite app_nil_r.
Qed.

Lemma main_output_refused_witness :
  main (fs_with "{}" Yes Yes [OUTPUT_PATH_WITH_HULLS])
       (sample_io [park "Marine Park" (GPolygon block)]) geos_echo (small_config ∅)
  = (Exit1 "Could not write to file: ./output_data/1a_parks_with_concave_hulls.geojson",
     [FileWritten OUTPUT_PATH_HULLS "Marine Park;"]).
Proof.
  erewrite (main_output_refused _ _ _ _ "{}" [park "Marine Park" (GPolygon block)]
              _ [] true); cycle 1.
  - reflexivity.
  - reflexivity.
  - vm_compute. reflexivity.
  - reflexivity.
  - reflexivity.
  - intros _. reflexivity.
  - vm_compute. reflexivity.
Defined.

(** X19. Issue files are numbered from 1, two issues never share a file
    name, and no issue file has the name of the source file or of an output
    file: writing the issue files overwrites none of them. *)
Theorem issue_filenames_distinct i j :
  issue_filename 0 = "temp/issue_geojson/issue_1.geojson"
  ∧ (issue_filename i = issue_filename j ↔ i = j)
  ∧ issue_filename i ≠ SOURCE_DATA_FILE
  ∧ issue_filename i ≠ OUTPUT_PATH_HULLS
  ∧ issue_filename i ≠ OUTPUT_PATH_WITH_HULLS.
Proof.
  split_and!; try (unfold issue_filename; discriminate).
  - reflexivity.
  - split; [|by intros ->]. unfold issue_filename. intros H.
    apply (inj (String.app issue_dir)), (inj (String.app "/issue_")) in H.
    apply string_app_inv_tail, (inj pretty) in H. lia.
Qed.

(** ** Kernel failures and the run *)

(** [main] when the in-memory run reaches undefined behaviour. *)
Lemma main_run_undefined fs io geos cfg content features fault :
  open_for_reading fs SOURCE_DATA_FILE = Some content →
  readFeatures io content = Parsed features →
  run geos cfg features = Undefined fault →
  main fs io geos cfg = (Crashed fault, []).
Proof.
  intros Ho Hp Hr. unfold main, main_body, readFile. rewrite Ho.
  unfold mbind at 1, IO_bind at 1. unfold mret, IO_ret.
  rewrite Hp. unfold mbind at 1, IO_bind at 1. unfold lift at 1.
  rewrite Hr. unfold mbind at 1, IO_bind at 1. unfold lift at 1. done.
Qed.

(** C7. The claim is that a kernel failure is caught, the search escalates
    and retries, and no kernel failure ever aborts the run. Each failure is
    indeed caught and followed by a retry at the raised threshold (lemma
    [kernel_failure_escalates]), and none reaches the [catch] of [main]. But
    when the kernel fails at every attempt for some whitelist-included
    multi-polygon, all [MAX_ATTEMPTS] failures are absorbed, [hull] is still
    null, and the run aborts at line 244: [main] neither returns a status
    nor writes anything. *)
Theorem kernel_failures_abort_main fs io geos cfg content features feature parts :
  open_for_reading fs SOURCE_DATA_FILE = Some content →
  readFeatures io content = Parsed features →
  feature ∈ features →
  should_process cfg (getProperties feature) = true →
  getGeometry feature = GMultiPolygon parts →
  (∀ t, ∃ what,
     concaveHullByLength geos (getGeometry feature) t true false = Throws what) →
  attempts (search geos cfg (getGeometry feature)) = MAX_ATTEMPTS cfg
  ∧ length (thresholds_tried (search geos cfg (getGeometry feature)))
    = MAX_ATTEMPTS cfg
  ∧ hull (search geos cfg (getGeometry feature)) = None
  ∧ ∃ fault, main fs io geos cfg = (Crashed fault, []).
Proof.
  intros Ho Hp Hin Hs Hg Hall.
  destruct (search_loop_all_throw geos cfg (getGeometry feature)
              (MAX_ATTEMPTS cfg) (search_init cfg) Hall) as (Hh & Ha & Hl).
  fold (search geos cfg (getGeometry feature)) in Hh, Ha, Hl. simpl in Hh, Ha, Hl.
  split_and!; [done | done | done |].
  assert (Hnone : emitted geos cfg feature = None).
  { unfold emitted. rewrite Hs, Hg. simpl. rewrite <- Hg, Hh.
    by destruct (getProperties feature !! "name311"). }
  destruct (run geos cfg features) as [r|what|fault] eqn:Hr.
  - assert (Hdone : ∃ r, run geos cfg features = Done r) by eauto.
    apply run_done_iff in Hdone. rewrite Forall_forall in Hdone.
    apply Hdone in Hin. rewrite Hnone in Hin. by destruct Hin.
  - by destruct (run_never_throws geos cfg features what).
  - exists fault. by apply main_run_undefined with content features.
Qed.

Lemma kernel_failures_abort_main_witness :
  main (fs_fresh "{}")
       (sample_io [park "Marine Park" (GPolygon block);
                   park "Prospect Park" (GMultiPolygon [block; field])])
       geos_throws source_config
  = (Crashed NullHullDeref, []).
Proof.
  destruct (kernel_failures_abort_main (fs_fresh "{}")
              (sample_io [park "Marine Park" (GPolygon block);
                          park "Prospect Park" (GMultiPolygon [block; field])])
              geos_throws source_config "{}"
              [park "Marine Park" (GPolygon block);
               park "Prospect Park" (GMultiPolygon [block; field])]
              (park "Prospect Park" (GMultiPolygon [block; field])) [block; field])
    as (_ & _ & _ & fault & Hm).
  - reflexivity.
  - reflexivity.
  - apply list_elem_of_In. right. left. reflexivity.
  - vm_compute. reflexivity.
  - reflexivity.
  - intros t. eexists. reflexivity.
  - rewrite Hm. vm_compute in Hm. by injection Hm as <-.
Defined.
